(** * A polymetric Euclidean step sequencer (src/src/App.tsx)

    The development embeds the pattern generator of the [Track] component
    and the scheduling callback, start, stop and pause handlers of the
    [EuclideanSequencer] component, and proves properties of them.

    JavaScript numbers are IEEE 754 binary64 values.  The generator divides
    two integers and accumulates the quotient by repeated addition, so its
    output depends on the rounding of every operation; the embedding keeps
    this by computing with the Standard Library's executable specification
    of binary floating point ([SpecFloat]) at precision 53 and maximal
    exponent 1024, rounding to nearest, ties to even. *)

From Stdlib Require Import ZArith Floats.SpecFloat.
From stdpp Require Import gmap list sorting strings pretty.

(** ** JavaScript numbers *)

Module Num.

Definition prec : Z := 53.
Definition emax : Z := 1024.

(** A JavaScript [number]. *)
Definition num : Type := spec_float.

(** The number denoted by an integer literal or delivered by [parseInt]. *)
Definition of_Z (z : Z) : num := binary_normalize prec emax z 0 false.
Definition of_nat (n : nat) : num := of_Z (Z.of_nat n).

Definition add : num → num → num := SFadd prec emax.
Definition mul : num → num → num := SFmul prec emax.
Definition div : num → num → num := SFdiv prec emax.

(** An integer-valued number, or [None] for the results that are no
    integers: [NaN], [Infinity] and [-Infinity]. *)
Definition int : Type := option Z.

(** [Math.floor x].  A finite [x] is [m * 2^e] up to sign, and shifting
    an integer by a negative amount rounds towards minus infinity. *)
Definition floor (x : num) : int :=
  match x with
  | S754_zero _ => Some 0%Z
  | S754_finite s m e => Some (Z.shiftl (cond_Zopp s (Z.pos m)) e)
  | S754_infinity _ | S754_nan => None
  end.

(** [a % n] for an integer-valued [a] and a natural [n]: the remainder has
    the sign of the dividend, and is [NaN] when the dividend is not finite
    or the divisor is zero.  The floating-point remainder of two finite
    numbers is exact, so it is the remainder of the integers. *)
Definition rem (a : int) (n : nat) : int :=
  match a, n with
  | Some z, S _ => Some (Z.rem z (Z.of_nat n))
  | _, _ => None
  end.

End Num.

Abbreviation num := Num.num.

(** ** Arrays of booleans

    A pattern is a JavaScript array whose elements are read for their truth
    value only, so it is a [list bool]: a hole or [undefined] is [false]. *)

(** [a[k]] read for its truth value: [undefined], hence falsy, when [k] is
    no index of [a]. *)
Definition array_get (a : list bool) (k : Num.int) : bool :=
  match k with
  | Some z => if (z <? 0)%Z then false else default false (a !! Z.to_nat z)
  | None => false
  end.

(** [a[k] = v].  An index inside the array replaces the element, an index
    past the end extends the array (the holes read as [undefined]), and a
    key that is no index ([NaN] or a negative number) becomes a named
    property, which leaves the elements alone. *)
Definition array_set (a : list bool) (k : Num.int) (v : bool) : list bool :=
  match k with
  | Some z =>
      if (z <? 0)%Z then a
      else
        let i := Z.to_nat z in
        if decide (i < length a) then <[i := v]> a
        else a ++ replicate (i - length a) false ++ [v]
  | None => a
  end.

(** ** The pattern generator ([generatePattern], App.tsx lines 99-110)

    The arguments are the non-negative integers that [parseInt] reads from
    the sliders.  Array lengths and the loop counter are natural numbers;
    the index and the increment are floating-point numbers. *)

(** The [for] loop: [n] iterations remain, [index] is the accumulator. *)
Fixpoint generatePattern_loop (n steps : nat) (increment index : num)
    (pattern : list bool) : list bool :=
  match n with
  | O => pattern
  | S n' =>
      generatePattern_loop n' steps increment (Num.add index increment)
        (array_set pattern (Num.rem (Num.floor index) steps) true)
  end.

Definition generatePattern (steps pulses rotations : nat) : list bool :=
  if decide (pulses = 0) then replicate steps false
  else
    let pattern := replicate steps false in
    let increment := Num.div (Num.of_nat steps) (Num.of_nat pulses) in
    let pattern := generatePattern_loop pulses steps increment (Num.of_nat 0) pattern in
    drop rotations pattern ++ take rotations pattern.

(** Number of active steps of a pattern. *)
Definition active_count (pattern : list bool) : nat :=
  length (filter (λ b, b = true) pattern).

(** Whether none of the writes of [generatePattern_loop] goes to position
    [j].  The divisor is given in binary, so that a long loop can be
    evaluated. *)
Fixpoint loop_misses (n : nat) (steps : Z) (increment index : num) (j : Z) : bool :=
  match n with
  | O => true
  | S n' =>
      match Num.floor index with
      | Some z => negb (Z.rem z steps =? j)%Z
      | None => true
      end
      && loop_misses n' steps increment (Num.add index increment) j
  end.

(** The pattern of three pulses over eight steps of Bjorklund's algorithm,
    for comparison. *)
Definition bjorklund_8_3 : list bool :=
  [true; false; false; true; false; false; true; false].

(** A step count far beyond the slider's. *)
Definition many_steps : nat := Z.to_nat 400000.

(** ** The [Track] component (App.tsx lines 40-399) *)

(** What a track reports to the sequencer ([TrackSettings], lines 4-20).
    The sound parameters (gain, frequency, pan, instrument, envelope and
    filter) are carried to the sound engine and never read by the scheduler;
    [scheduleNote] is represented by the note it schedules, see [Note]. *)
Module TrackSettings.
Record t : Type := mk {
  steps : nat;
  pulses : nat;
  pattern : list bool;
  patternLength : nat
}.
End TrackSettings.

Module Track.

(** The three [useState] cells the pattern depends on. *)
Record state : Type := mk {
  steps : nat;
  pulses : nat;
  rotations : nat
}.

(** [useState(16)], [useState(4)], [useState(0)]. *)
Definition initial : state := {| steps := 16; pulses := 4; rotations := 0 |}.

(** The value a range input delivers when the user asks for [v]: the
    browser keeps it between the [min] and [max] attributes. *)
Definition range_input (min max v : nat) : nat := Nat.max min (Nat.min max v).

(** The three sliders (lines 222-257) and their [onChange] handlers. *)
Inductive change : Type :=
| StepsSlider (v : nat)
| PulsesSlider (v : nat)
| RotationsSlider (v : nat).

Definition onChange (c : change) (s : state) : state :=
  match c with
  | StepsSlider v =>
      {| steps := range_input 1 32 v; pulses := pulses s; rotations := rotations s |}
  | PulsesSlider v =>
      {| steps := steps s;
         pulses := Nat.min (range_input 0 (steps s) v) (steps s);
         rotations := rotations s |}
  | RotationsSlider v =>
      {| steps := steps s; pulses := pulses s;
         rotations := range_input 0 (steps s - 1) v |}
  end.

(** The pattern computed by the effect (line 113). *)
Definition newPattern (s : state) : list bool :=
  generatePattern (steps s) (Nat.min (pulses s) (steps s)) (rotations s).

(** The settings handed to [onSettingsChange] (lines 160-176). *)
Definition settings (s : state) : TrackSettings.t :=
  {| TrackSettings.steps := steps s;
     TrackSettings.pulses := Nat.min (pulses s) (steps s);
     TrackSettings.pattern := newPattern s;
     TrackSettings.patternLength := steps s |}.

(** States the sliders can produce from the initial one. *)
Inductive reachable : state → Prop :=
| reachable_initial : reachable initial
| reachable_change c s : reachable s → reachable (onChange c s).

End Track.

(** The pattern the specification describes: the one generated after
    clamping steps to [1,32], pulses to [0,steps] and rotation to
    [0,steps).  This definition follows the specification's words, to be
    compared with [Track.newPattern]. *)
Definition clamp (lo hi v : nat) : nat := Nat.max lo (Nat.min hi v).

Definition spec_clamped_pattern (steps pulses rotation : nat) : list bool :=
  let steps' := clamp 1 32 steps in
  generatePattern steps' (clamp 0 steps' pulses) (clamp 0 (steps' - 1) rotation).

(** ** The sequencer ([EuclideanSequencer], App.tsx lines 404-574) *)

(** The local step of a track at a master step (line 462):
    [Math.floor(currentStep / 32 * steps) % steps]. *)
Definition trackStep (currentStep steps : nat) : Num.int :=
  Num.rem
    (Num.floor (Num.mul (Num.div (Num.of_nat currentStep) (Num.of_nat 32))
                        (Num.of_nat steps)))
    steps.

(** A call [track.scheduleNote(time, noteDuration)]. *)
Record Note : Type := {
  note_track : nat;
  note_time : num;
  note_duration : num
}.

(** [last !== k], where [last] is an entry of [lastPlayedStepRef.current]
    ([None] when the key is absent, which reads as [undefined]) and [k] a
    step.  [undefined] differs from every number, and so does [NaN]. *)
Definition strict_ne (last : option Num.int) (k : Num.int) : bool :=
  match last, k with
  | Some (Some a), Some b => negb (a =? b)%Z
  | _, _ => true
  end.

(** The state of the transport of the Tone.js library, which runs the
    repeating callback only while it is started. *)
Inductive TransportState : Type := started | stopped | paused.

Record Sequencer : Type := {
  isPlaying : bool;
  isPaused : bool;
  currentStep : nat;
  noteDuration : num;
  currentStepRef : nat;
  tracksRef : gmap nat TrackSettings.t;
  lastPlayedStepRef : gmap nat Num.int;
  transport : TransportState
}.

(** The component as first rendered (lines 405-413). *)
Definition mount (noteDuration : num) : Sequencer :=
  {| isPlaying := false; isPaused := false; currentStep := 0;
     noteDuration := noteDuration; currentStepRef := 0;
     tracksRef := ∅; lastPlayedStepRef := ∅; transport := stopped |}.

Definition handleSettingsChange (trackId : nat) (settings : TrackSettings.t)
    (s : Sequencer) : Sequencer :=
  {| isPlaying := isPlaying s; isPaused := isPaused s;
     currentStep := currentStep s; noteDuration := noteDuration s;
     currentStepRef := currentStepRef s;
     tracksRef := <[trackId := settings]> (tracksRef s);
     lastPlayedStepRef := lastPlayedStepRef s;
     transport := transport s |}.

Definition startSequencer (s : Sequencer) : Sequencer :=
  {| isPlaying := true; isPaused := false;
     currentStep := currentStep s; noteDuration := noteDuration s;
     currentStepRef := currentStepRef s;
     tracksRef := tracksRef s;
     lastPlayedStepRef := lastPlayedStepRef s;
     transport := match transport s with
                  | started => started
                  | stopped | paused => (* transport.start() *) started
                  end |}.

Definition stopSequencer (s : Sequencer) : Sequencer :=
  {| isPlaying := false; isPaused := false;
     currentStep := 0; noteDuration := noteDuration s;
     currentStepRef := 0;
     tracksRef := tracksRef s;
     lastPlayedStepRef := ∅;
     transport := stopped |}.

Definition pauseSequencer (s : Sequencer) : Sequencer :=
  {| isPlaying := false; isPaused := true;
     currentStep := currentStep s; noteDuration := noteDuration s;
     currentStepRef := currentStepRef s;
     tracksRef := tracksRef s;
     lastPlayedStepRef := lastPlayedStepRef s;
     transport := paused |}.

(** [Object.entries] of an object with integer keys lists them in ascending
    order. *)
Definition entry_le {A : Type} (a b : nat * A) : Prop := a.1 ≤ b.1.

#[global] Instance entry_le_dec {A : Type} (a b : nat * A) : Decision (entry_le a b).
Proof. unfold entry_le. apply _. Defined.

Definition Object_entries {A : Type} (o : gmap nat A) : list (nat * A) :=
  merge_sort entry_le (map_to_list o).

(** The body of the [forEach] (lines 461-467) for one entry; the state it
    threads is [lastPlayedStepRef.current] and the notes scheduled so far. *)
Definition forEach_track (currentStep : nat) (time duration : num)
    (acc : gmap nat Num.int * list Note) (entry : nat * TrackSettings.t)
    : gmap nat Num.int * list Note :=
  let trackId := entry.1 in
  let track := entry.2 in
  let trackStep := trackStep currentStep (TrackSettings.steps track) in
  if array_get (TrackSettings.pattern track) trackStep
     && strict_ne (acc.1 !! trackId) trackStep
  then (<[trackId := trackStep]> acc.1,
        acc.2 ++ [{| note_track := trackId; note_time := time; note_duration := duration |}])
  else acc.

(** The callback given to [transport.scheduleRepeat] (lines 459-472): the
    notes it schedules and the state it leaves. *)
Definition scheduleRepeat_callback (time : num) (s : Sequencer) : list Note * Sequencer :=
  let r := foldl (forEach_track (currentStepRef s) time (noteDuration s))
             (lastPlayedStepRef s, []) (Object_entries (tracksRef s)) in
  let next := (currentStepRef s + 1) mod 32 in
  (r.2,
   {| isPlaying := isPlaying s; isPaused := isPaused s;
      currentStep := next; noteDuration := noteDuration s;
      currentStepRef := next;
      tracksRef := tracksRef s;
      lastPlayedStepRef := r.1;
      transport := transport s |}).

(** What happens to the sequencer: the three buttons, a track reporting its
    settings, and the transport's clock reaching the next sixteenth note. *)
Inductive Action : Type :=
| Start
| Stop
| Pause
| SettingsChange (trackId : nat) (settings : TrackSettings.t)
| Clock (time : num).

Definition step (a : Action) (s : Sequencer) : list Note * Sequencer :=
  match a with
  | Start => ([], startSequencer s)
  | Stop => ([], stopSequencer s)
  | Pause => ([], pauseSequencer s)
  | SettingsChange trackId settings => ([], handleSettingsChange trackId settings s)
  | Clock time =>
      match transport s with
      | started => scheduleRepeat_callback time s
      | stopped | paused => ([], s)
      end
  end.

(** A run: the notes scheduled, in order, and the final state. *)
Fixpoint run (actions : list Action) (s : Sequencer) : list Note * Sequencer :=
  match actions with
  | [] => ([], s)
  | a :: rest =>
      let r := step a s in
      let r' := run rest r.2 in
      (r.1 ++ r'.1, r'.2)
  end.

(** The notes of one track. *)
Definition notes_of (trackId : nat) (notes : list Note) : list Note :=
  filter (λ n, note_track n = trackId) notes.

(** The condition of line 464 for a track whose entry in
    [lastPlayedStepRef.current] is [last]. *)
Definition fires (currentStep : nat) (track : TrackSettings.t)
    (last : option Num.int) : bool :=
  let trackStep := trackStep currentStep (TrackSettings.steps track) in
  array_get (TrackSettings.pattern track) trackStep && strict_ne last trackStep.

(** A track whose rotation was set to 10 while it had 16 steps, and whose
    steps were then lowered to 4. *)
Definition stale_rotation : Track.state :=
  Track.onChange (Track.PulsesSlider 1)
    (Track.onChange (Track.StepsSlider 4)
       (Track.onChange (Track.RotationsSlider 10) Track.initial)).

(** ** A sequencer to run

    The note length is the initial [useState(0.2)]; the transport calls back
    every sixteenth note, an eighth of a second apart at 120 beats per
    minute. *)
Definition default_noteDuration : num := Num.div (Num.of_nat 1) (Num.of_nat 5).

Definition clock_time (i : nat) : num := Num.div (Num.of_nat i) (Num.of_nat 8).

Definition clock (n : nat) : list Action := (λ i, Clock (clock_time i)) <$> seq 0 n.

(** A track of four steps with one pulse, as the sliders set it up. *)
Definition one_pulse : Track.state :=
  Track.onChange (Track.PulsesSlider 1) (Track.onChange (Track.StepsSlider 4) Track.initial).

(** The sequencer after that track reported its settings and Start was
    pressed. *)
Definition playing (trackId : nat) (t : Track.state) : Sequencer :=
  startSequencer
    (handleSettingsChange trackId (Track.settings t) (mount default_noteDuration)).

(** ** One track on its own

    Definitions used to follow a single track through the calls of the
    callback. *)

(** What the memory of a track can hold. *)
Definition memory_ok (s : Sequencer) : Prop :=
  ∀ (trackId : nat) (v : Num.int),
    lastPlayedStepRef s !! trackId = Some v →
    is_Some (tracksRef s !! trackId) ∧ ∃ z : Z, v = Some z ∧ (0 ≤ z)%Z.

(** The local steps of a track over [count] calls of the callback that
    start at master step [c]. *)
Fixpoint local_steps (c steps count : nat) : list Num.int :=
  match count with
  | O => []
  | S count' => trackStep c steps :: local_steps ((c + 1) mod 32) steps count'
  end.

(** One track followed through a list of local steps: the number of notes
    scheduled for it and the memory it is left with. *)
Fixpoint track_run (pattern : list bool) (last : option Num.int)
    (ks : list Num.int) : nat * option Num.int :=
  match ks with
  | [] => (0, last)
  | k :: ks' =>
      if array_get pattern k && strict_ne last k
      then let r := track_run pattern (Some k) ks' in (S r.1, r.2)
      else track_run pattern last ks'
  end.

(** A list of steps without the repetitions of a step next to itself. *)
Fixpoint dedup_adjacent (ks : list Num.int) : list Num.int :=
  match ks with
  | [] => []
  | k :: ks' =>
      match ks' with
      | [] => [k]
      | k' :: _ => if decide (k = k') then dedup_adjacent ks' else k :: dedup_adjacent ks'
      end
  end.

(** Step [j] as the callback computes it. *)
Definition step_index (j : nat) : Num.int := Some (Z.of_nat j).

(** The memory holds no step from [i] on. *)
Definition below (last : option Num.int) (i : nat) : Prop :=
  match last with
  | Some (Some z) => (z < Z.of_nat i)%Z
  | _ => True
  end.

(** The memory holds an active step that has another active step before
    it. *)
Definition after_another (pattern : list bool) (last : option Num.int) : Prop :=
  ∃ a j : nat,
    last = Some (step_index a) ∧ j < a
    ∧ pattern !! j = Some true ∧ pattern !! a = Some true.

(** ** The pentatonic scale (App.tsx lines 68-96) *)

(** The number written as the decimal literal [digits / scale], [scale] a
    power of ten: the double nearest to that rational, which is also what
    the correctly rounded division of the two integers gives. *)
Definition decimal (digits scale : Z) : num :=
  Num.div (Num.of_Z digits) (Num.of_Z scale).

(** The notes C4 to A6 of the C major pentatonic scale, in hertz. *)
Definition PENTATONIC_SCALE : list num :=
  [decimal 26163 100; decimal 29366 100; decimal 32963 100; decimal 39200 100;
   decimal 44000 100;
   decimal 52325 100; decimal 58733 100; decimal 65925 100; decimal 78399 100;
   decimal 88000 100;
   decimal 104650 100; decimal 117466 100; decimal 131851 100; decimal 156798 100;
   decimal 176000 100].

(** [Math.abs(note - freq)]. *)
Definition distance (freq note : num) : num :=
  SFabs (SFsub Num.prec Num.emax note freq).

(** The function given to [reduce] (lines 86-88). *)
Definition nearer (freq prev curr : num) : num :=
  if SFltb (distance freq curr) (distance freq prev) then curr else prev.

(** [array.reduce(f)] without an initial value: the first element starts
    the accumulation, and an empty array is a [TypeError] ([None]). *)
Definition reduce {A : Type} (f : A → A → A) (array : list A) : option A :=
  match array with
  | [] => None
  | first :: rest => Some (foldl f first rest)
  end.

(** [snapToNearestNote] (lines 85-89). *)
Definition snapToNearestNote (freq : num) : option num :=
  reduce (nearer freq) PENTATONIC_SCALE.

(** [array.indexOf(x)]: the first index whose element is strictly equal to
    [x], or -1. *)
Definition indexOf (array : list num) (x : num) : Z :=
  match list_find (λ y, SFeqb y x = true) array with
  | Some (i, _) => Z.of_nat i
  | None => (-1)%Z
  end.

(** The note names of line 92. *)
Definition noteNames : list string := ["C"; "D"; "E"; "G"; "A"].

(** [array[k]] for an array of strings, inside a template literal. *)
Definition template_element (array : list string) (k : Num.int) : string :=
  match k with
  | Some z => if (z <? 0)%Z then "undefined" else default "undefined" (array !! Z.to_nat z)
  | None => "undefined"
  end.

(** An integer-valued number inside a template literal. *)
Definition template_int (k : Num.int) : string :=
  match k with
  | Some z => pretty z
  | None => "NaN"
  end.

(** The name of a note of the scale (lines 92-95). *)
Definition noteName (note : num) : string :=
  let index := indexOf PENTATONIC_SCALE note in
  let octave :=
    (λ z, (z + 4)%Z) <$> Num.floor (Num.div (Num.of_Z index) (Num.of_Z 5)) in
  template_element noteNames (Num.rem (Some index) 5) +:+ template_int octave.

(** [getNoteNameFromFrequency] (lines 91-96): [None] if snapping fails. *)
Definition getNoteNameFromFrequency (freq : num) : option string :=
  noteName <$> snapToNearestNote freq.

(** The fifteen names a note can get. *)
Definition note_names : list string :=
  ["C4"; "D4"; "E4"; "G4"; "A4"; "C5"; "D5"; "E5"; "G5"; "A5";
   "C6"; "D6"; "E6"; "G6"; "A6"].

(** The fill colour of the circles drawn for a pattern (lines 186-199), in
    the order of the steps.  The positions of the circles are computed
    with cosine and sine and are not part of the embedding. *)
Definition circle_fills (pattern : list bool) (currentStep steps : nat) : list string :=
  imap (λ (index : nat) (active : bool),
          let isCurrentStep :=
            bool_decide (trackStep currentStep steps = Some (Z.of_nat index)) in
          if isCurrentStep then "#FFFFFF"
          else if active then "#4CAF50" else "#757575")
       pattern.

(** * Properties *)

Example generatePattern_16_4 :
  generatePattern 16 4 0 =
  [true; false; false; false; true; false; false; false;
   true; false; false; false; true; false; false; false].
Proof. vm_compute. reflexivity. Qed.

Example generatePattern_12_9 :
  generatePattern 12 9 0 =
  [true; true; true; false; true; true; true; true; false; true; true; false].
Proof. vm_compute. reflexivity. Qed.

(** ** Properties of the generator *)

Section Generator.

Implicit Types (pattern : list bool) (k : Num.int) (index increment : num).

(** A remainder is smaller in magnitude than the divisor. *)
Lemma rem_Some_bound (a : Num.int) (n : nat) (z : Z) :
  Num.rem a n = Some z → (Z.abs z < Z.of_nat n)%Z.
Proof.
  destruct a as [d|], n as [|n']; simpl; try discriminate.
  intros [= <-].
  pose proof (Z.rem_bound_abs d (Z.of_nat (S n'))) as Hb.
  rewrite (Z.abs_eq (Z.of_nat (S n'))) in Hb by lia. apply Hb. lia.
Qed.

(** A write at a remainder modulo the length never extends the array. *)
Lemma array_set_rem_length pattern (a : Num.int) v :
  length (array_set pattern (Num.rem a (length pattern)) v) = length pattern.
Proof.
  destruct (Num.rem a (length pattern)) as [z|] eqn:Hrem; simpl; [|done].
  apply rem_Some_bound in Hrem.
  destruct (z <? 0)%Z eqn:Hneg; [done|].
  apply Z.ltb_ge in Hneg.
  destruct (decide (Z.to_nat z < length pattern)) as [_|Hout].
  - apply length_insert.
  - exfalso. apply Hout. lia.
Qed.

Lemma generatePattern_loop_length n steps increment index pattern :
  length pattern = steps →
  length (generatePattern_loop n steps increment index pattern) = steps.
Proof.
  revert index pattern.
  induction n as [|n IH]; intros index pattern Hlen; simpl; [done|].
  apply IH. subst steps. apply array_set_rem_length.
Qed.

(** The two slices of the rotation step put every element back. *)
Lemma rotate_slices_length (rotations : nat) pattern :
  length (drop rotations pattern ++ take rotations pattern) = length pattern.
Proof. rewrite length_app, length_drop, length_take. lia. Qed.

Lemma rotate_slices_ge (rotations : nat) pattern :
  length pattern ≤ rotations →
  drop rotations pattern ++ take rotations pattern = pattern.
Proof. intros Hge. by rewrite drop_ge, take_ge. Qed.

Lemma rotate_slices_0 pattern : drop 0 pattern ++ take 0 pattern = pattern.
Proof. rewrite drop_0, take_0. apply app_nil_r. Qed.

Lemma generatePattern_length (steps pulses rotations : nat) :
  length (generatePattern steps pulses rotations) = steps.
Proof.
  unfold generatePattern.
  destruct (decide (pulses = 0)) as [_|_]; [apply length_replicate|].
  rewrite rotate_slices_length.
  apply generatePattern_loop_length, length_replicate.
Qed.

Lemma generatePattern_unrotated (steps pulses : nat) :
  generatePattern steps pulses 0 =
  if decide (pulses = 0) then replicate steps false
  else generatePattern_loop pulses steps
         (Num.div (Num.of_nat steps) (Num.of_nat pulses)) (Num.of_nat 0)
         (replicate steps false).
Proof.
  unfold generatePattern. destruct (decide (pulses = 0)); [done|].
  apply rotate_slices_0.
Qed.

End Generator.

(** Checking a decidable property on every number below a bound. *)
Lemma forall_below (P : nat → Prop) `{!∀ n, Decision (P n)} (bound : nat) :
  bool_decide (Forall P (seq 0 bound)) = true → ∀ n, n < bound → P n.
Proof.
  intros Hall n Hn. apply bool_decide_eq_true in Hall.
  rewrite Forall_seq in Hall. apply Hall. lia.
Qed.

(** C10.  Whatever the rotation, the pattern has as many entries as there
    are steps; a rotation of [steps] or more gives the pattern that no
    rotation gives. *)
Theorem generatePattern_any_rotation (steps pulses rotations : nat) :
  length (generatePattern steps pulses rotations) = steps
  ∧ (steps ≤ rotations →
     generatePattern steps pulses rotations = generatePattern steps pulses 0).
Proof.
  split; [apply generatePattern_length|].
  intros Hge. rewrite generatePattern_unrotated. unfold generatePattern.
  destruct (decide (pulses = 0)); [done|].
  apply rotate_slices_ge.
  rewrite generatePattern_loop_length; [done|apply length_replicate].
Qed.

(** C7.  Three pulses over eight steps fall on steps 0, 2 and 5, which is
    not the placement of Bjorklund's algorithm. *)
Theorem generatePattern_8_3 :
  generatePattern 8 3 0 = [true; false; true; false; false; true; false; false]
  ∧ generatePattern 8 3 0 ≠ bjorklund_8_3.
Proof. vm_compute. split; [reflexivity|discriminate]. Qed.

(** C2.  With 1 to 32 steps and no more pulses than steps, the unrotated
    pattern has [steps] entries, [pulses] of them active. *)
Theorem generatePattern_count (steps pulses : nat) :
  1 ≤ steps ≤ 32 → pulses ≤ steps →
  length (generatePattern steps pulses 0) = steps
  ∧ active_count (generatePattern steps pulses 0) = pulses.
Proof.
  intros Hsteps Hpulses. split; [apply generatePattern_length|].
  assert (∀ steps, steps < 33 →
            Forall (λ pulses, active_count (generatePattern steps pulses 0) = pulses)
              (seq 0 (S steps))) as Hall.
  { apply (forall_below
             (λ steps, Forall (λ pulses,
                active_count (generatePattern steps pulses 0) = pulses)
                (seq 0 (S steps)))).
    vm_compute. reflexivity. }
  specialize (Hall steps ltac:(lia)).
  rewrite Forall_seq in Hall. apply Hall. lia.
Qed.

(** ** The edge cases of the generator *)


(** A write elsewhere leaves position [j] alone. *)
Lemma array_set_rem_lookup_ne (pattern : list bool) (a : Num.int) (j : nat) (v : bool) :
  Num.rem a (length pattern) ≠ Some (Z.of_nat j) →
  array_set pattern (Num.rem a (length pattern)) v !! j = pattern !! j.
Proof.
  intros Hne.
  destruct (Num.rem a (length pattern)) as [z|] eqn:Hrem; simpl; [|done].
  apply rem_Some_bound in Hrem.
  destruct (z <? 0)%Z eqn:Hneg; [done|].
  apply Z.ltb_ge in Hneg.
  destruct (decide (Z.to_nat z < length pattern)) as [_|Hout]; [|lia].
  apply list_lookup_insert_ne. intros <-. apply Hne. f_equal. lia.
Qed.

(** A position that every write of the loop misses keeps its value. *)
Lemma loop_misses_lookup (n steps : nat) (increment index : num)
    (pattern : list bool) (j : nat) :
  length pattern = steps →
  loop_misses n (Z.of_nat steps) increment index (Z.of_nat j) = true →
  generatePattern_loop n steps increment index pattern !! j = pattern !! j.
Proof.
  revert index pattern.
  induction n as [|n IH]; intros index pattern Hlen Hmiss; [done|].
  cbn [loop_misses] in Hmiss. apply andb_prop in Hmiss as [Hhere Hrest].
  cbn [generatePattern_loop].
  rewrite IH; [|subst steps; apply array_set_rem_length|done].
  subst steps. apply array_set_rem_lookup_ne.
  destruct (Num.floor index) as [z|]; [|by destruct (length pattern)].
  destruct (length pattern) as [|len] eqn:Hl; [done|]. cbn [Num.rem].
  intros [= Heq]. rewrite Heq, Z.eqb_refl in Hhere. done.
Qed.

(** Far beyond the sliders the rounding of the additions shows.  With
    400000 steps and one pulse more, the sum of the rounded increments
    stays below 399999, so the last step is never written: the bound on
    the steps in the theorem below is needed. *)
Lemma all_true_fails_for_many_steps :
  1 ≤ many_steps ∧ many_steps ≤ S many_steps
  ∧ generatePattern many_steps (S many_steps) 0 !! (many_steps - 1) = Some false
  ∧ generatePattern many_steps (S many_steps) 0 ≠ replicate many_steps true.
Proof.
  assert (generatePattern many_steps (S many_steps) 0 !! (many_steps - 1) = Some false)
    as Hlast.
  { rewrite generatePattern_unrotated.
    destruct (decide (S many_steps = 0)) as [Hzero|_]; [discriminate Hzero|].
    rewrite loop_misses_lookup.
    - apply lookup_replicate_2. unfold many_steps. lia.
    - apply length_replicate.
    - vm_compute. reflexivity. }
  split; [unfold many_steps; lia|].
  split; [lia|].
  split; [exact Hlast|].
  intros Heq. rewrite Heq in Hlast.
  rewrite lookup_replicate_2 in Hlast; [discriminate Hlast|].
  unfold many_steps. lia.
Qed.



(** ** What reaches the generator from the sliders *)

Lemma reachable_bounds (s : Track.state) :
  Track.reachable s →
  1 ≤ Track.steps s ≤ 32 ∧ Track.pulses s ≤ 32 ∧ Track.rotations s ≤ 31.
Proof.
  induction 1 as [|c s _ IH]; [cbn; lia|].
  destruct c; cbn [Track.onChange Track.steps Track.pulses Track.rotations];
    unfold Track.range_input; lia.
Qed.

(** While the rotation is below the step count the pattern of a track is
    the one of the clamped values. *)
Lemma newPattern_in_range (s : Track.state) :
  1 ≤ Track.steps s ≤ 32 → Track.rotations s < Track.steps s →
  Track.newPattern s
  = spec_clamped_pattern (Track.steps s) (Track.pulses s) (Track.rotations s).
Proof.
  intros Hsteps Hrot. unfold Track.newPattern, spec_clamped_pattern, clamp.
  f_equal; lia.
Qed.

(** C4, evaluated.  The rotation is set to 10 while the track has 16 steps,
    then the steps are lowered to 4.  Nothing clamps the rotation, the
    generator rotates by 10 of 4 entries, which is no rotation; clamped to
    3, the rotation would move the pulse to step 1. *)
Theorem stale_rotation_is_not_clamped :
  Track.reachable stale_rotation
  ∧ stale_rotation = {| Track.steps := 4; Track.pulses := 1; Track.rotations := 10 |}
  ∧ Track.newPattern stale_rotation = [true; false; false; false]
  ∧ spec_clamped_pattern 4 1 10 = [false; true; false; false].
Proof.
  split; [repeat constructor|]. vm_compute. repeat split; reflexivity.
Qed.

(** ** The scheduling callback, track by track *)

Section Callback.

Variables (c : nat) (time duration : num).

Implicit Types (acc : gmap nat Num.int * list Note)
  (entry : nat * TrackSettings.t) (entries : list (nat * TrackSettings.t)).

Let note (trackId : nat) : Note :=
  {| note_track := trackId; note_time := time; note_duration := duration |}.

(** An entry touches the memory and the notes of its own track only. *)
Lemma forEach_track_other acc entry trackId :
  entry.1 ≠ trackId →
  (forEach_track c time duration acc entry).1 !! trackId = acc.1 !! trackId
  ∧ notes_of trackId (forEach_track c time duration acc entry).2
    = notes_of trackId acc.2.
Proof.
  intros Hne. unfold forEach_track.
  destruct (_ && _); simpl; [|done].
  split; [by apply lookup_insert_ne|].
  unfold notes_of. rewrite filter_app, filter_cons_False, filter_nil by done.
  apply app_nil_r.
Qed.

Lemma forEach_track_own acc trackId track :
  (forEach_track c time duration acc (trackId, track)).1 !! trackId
  = (if fires c track (acc.1 !! trackId)
     then Some (trackStep c (TrackSettings.steps track))
     else acc.1 !! trackId)
  ∧ notes_of trackId (forEach_track c time duration acc (trackId, track)).2
    = notes_of trackId acc.2
      ++ (if fires c track (acc.1 !! trackId) then [note trackId] else []).
Proof.
  unfold forEach_track, fires; simpl.
  destruct (_ && _); simpl.
  - split; [apply lookup_insert_eq|].
    unfold notes_of. by rewrite filter_app, filter_cons_True.
  - by rewrite app_nil_r.
Qed.

Lemma foldl_forEach_other entries acc trackId :
  trackId ∉ entries.*1 →
  (foldl (forEach_track c time duration) acc entries).1 !! trackId
  = acc.1 !! trackId
  ∧ notes_of trackId (foldl (forEach_track c time duration) acc entries).2
    = notes_of trackId acc.2.
Proof.
  revert acc. induction entries as [|entry entries IH]; intros acc Hnot; [done|].
  rewrite fmap_cons, not_elem_of_cons in Hnot. destruct Hnot as [Hne Hnot].
  simpl. destruct (IH (forEach_track c time duration acc entry) Hnot) as [-> ->].
  by apply forEach_track_other.
Qed.

Lemma foldl_forEach_own entries acc trackId track :
  NoDup entries.*1 →
  (trackId, track) ∈ entries →
  (foldl (forEach_track c time duration) acc entries).1 !! trackId
  = (if fires c track (acc.1 !! trackId)
     then Some (trackStep c (TrackSettings.steps track))
     else acc.1 !! trackId)
  ∧ notes_of trackId (foldl (forEach_track c time duration) acc entries).2
    = notes_of trackId acc.2
      ++ (if fires c track (acc.1 !! trackId) then [note trackId] else []).
Proof.
  revert acc. induction entries as [|entry entries IH]; intros acc Hdup Hin.
  { by apply elem_of_nil in Hin. }
  rewrite fmap_cons in Hdup. apply NoDup_cons in Hdup as [Hfresh Hdup].
  apply elem_of_cons in Hin as [<-|Hin]; simpl.
  - destruct (foldl_forEach_other entries
                (forEach_track c time duration acc (trackId, track)) trackId Hfresh)
      as [-> ->].
    apply forEach_track_own.
  - assert (entry.1 ≠ trackId) as Hne.
    { intros Heq. apply Hfresh. rewrite Heq.
      apply (list_elem_of_fmap_2 fst) in Hin. exact Hin. }
    destruct (IH (forEach_track c time duration acc entry) Hdup Hin) as [-> ->].
    by destruct (forEach_track_other acc entry trackId Hne) as [-> ->].
Qed.

End Callback.

Section Entries.

Context {A : Type}.
Implicit Types (o : gmap nat A).

Lemma Object_entries_perm o : Object_entries o ≡ₚ map_to_list o.
Proof. apply merge_sort_Permutation. Qed.

Lemma elem_of_Object_entries o (key : nat) (v : A) :
  (key, v) ∈ Object_entries o ↔ o !! key = Some v.
Proof. rewrite Object_entries_perm. apply elem_of_map_to_list. Qed.

Lemma NoDup_Object_entries o : NoDup (Object_entries o).*1.
Proof. rewrite Object_entries_perm. apply NoDup_fst_map_to_list. Qed.

Lemma not_elem_of_Object_entries o (key : nat) :
  o !! key = None → key ∉ (Object_entries o).*1.
Proof.
  intros Hnone Hin. apply list_elem_of_fmap in Hin as [[key' v] [-> Hin]].
  apply elem_of_Object_entries in Hin. simpl in Hnone. congruence.
Qed.

End Entries.

(** One call of the callback, seen from one track. *)
Lemma callback_track (time : num) (s : Sequencer) (trackId : nat)
    (track : TrackSettings.t) :
  tracksRef s !! trackId = Some track →
  let last := lastPlayedStepRef s !! trackId in
  lastPlayedStepRef (scheduleRepeat_callback time s).2 !! trackId
  = (if fires (currentStepRef s) track last
     then Some (trackStep (currentStepRef s) (TrackSettings.steps track))
     else last)
  ∧ notes_of trackId (scheduleRepeat_callback time s).1
    = (if fires (currentStepRef s) track last
       then [{| note_track := trackId; note_time := time;
                note_duration := noteDuration s |}]
       else []).
Proof.
  intros Htrack last. unfold scheduleRepeat_callback; simpl.
  apply elem_of_Object_entries in Htrack.
  apply (foldl_forEach_own (currentStepRef s) time (noteDuration s) _
           (lastPlayedStepRef s, []) _ _ (NoDup_Object_entries _) Htrack).
Qed.

Lemma callback_no_track (time : num) (s : Sequencer) (trackId : nat) :
  tracksRef s !! trackId = None →
  lastPlayedStepRef (scheduleRepeat_callback time s).2 !! trackId
  = lastPlayedStepRef s !! trackId
  ∧ notes_of trackId (scheduleRepeat_callback time s).1 = [].
Proof.
  intros Hnone. unfold scheduleRepeat_callback; simpl.
  apply (foldl_forEach_other (currentStepRef s) time (noteDuration s) _
           (lastPlayedStepRef s, []) _ (not_elem_of_Object_entries _ _ Hnone)).
Qed.

Lemma callback_frame (time : num) (s : Sequencer) :
  tracksRef (scheduleRepeat_callback time s).2 = tracksRef s
  ∧ currentStepRef (scheduleRepeat_callback time s).2 = (currentStepRef s + 1) mod 32
  ∧ transport (scheduleRepeat_callback time s).2 = transport s.
Proof. done. Qed.

Lemma length_if_singleton {A : Type} (b : bool) (x : A) :
  length (if b then [x] else []) = if b then 1 else 0.
Proof. by destruct b. Qed.

(** A step that fires is an index of the pattern, and it is remembered. *)
Lemma array_get_true_Some (a : list bool) (k : Num.int) :
  array_get a k = true → ∃ z, k = Some z.
Proof. destruct k; [eauto|discriminate]. Qed.

Lemma strict_ne_same (z : Z) : strict_ne (Some (Some z)) (Some z) = false.
Proof. simpl. by rewrite Z.eqb_refl. Qed.

Lemma fires_twice (c1 c2 : nat) (track1 track2 : TrackSettings.t)
    (last : option Num.int) :
  trackStep c1 (TrackSettings.steps track1) = trackStep c2 (TrackSettings.steps track2) →
  fires c1 track1 last = true →
  fires c2 track2 (Some (trackStep c1 (TrackSettings.steps track1))) = false.
Proof.
  unfold fires. intros <- Hfire.
  apply andb_prop in Hfire as [Hget _].
  apply array_get_true_Some in Hget as [z ->].
  rewrite strict_ne_same. apply andb_false_r.
Qed.

(** ** Firing on transitions *)

(** An inactive step schedules nothing and leaves the track's memory as it
    was. *)
Lemma inactive_step_keeps_memory (time : num) (s : Sequencer) (trackId : nat)
    (track : TrackSettings.t) :
  tracksRef s !! trackId = Some track →
  array_get (TrackSettings.pattern track)
    (trackStep (currentStepRef s) (TrackSettings.steps track)) = false →
  lastPlayedStepRef (scheduleRepeat_callback time s).2 !! trackId
  = lastPlayedStepRef s !! trackId
  ∧ notes_of trackId (scheduleRepeat_callback time s).1 = [].
Proof.
  intros Htrack Hoff.
  destruct (callback_track time s trackId track Htrack) as [-> ->].
  unfold fires. by rewrite Hoff.
Qed.

(** A step that is still the remembered one schedules nothing, whether the
    track stayed on it or came back to it. *)
Lemma remembered_step_is_silent (time : num) (s : Sequencer) (trackId : nat)
    (track : TrackSettings.t) :
  tracksRef s !! trackId = Some track →
  lastPlayedStepRef s !! trackId
  = Some (trackStep (currentStepRef s) (TrackSettings.steps track)) →
  lastPlayedStepRef (scheduleRepeat_callback time s).2 !! trackId
  = lastPlayedStepRef s !! trackId
  ∧ notes_of trackId (scheduleRepeat_callback time s).1 = [].
Proof.
  intros Htrack Hlast.
  destruct (callback_track time s trackId track Htrack) as [-> ->].
  rewrite Hlast. unfold fires.
  destruct (array_get _ _) eqn:Hget; [|done].
  apply array_get_true_Some in Hget as [z ->].
  by rewrite strict_ne_same.
Qed.

(** A track whose pattern is active at one step only, and whose memory
    holds that step, is never played again, however long the clock runs:
    nothing but Stop clears the memory. *)
Lemma only_active_step_is_silent (time : num) (s : Sequencer) (trackId : nat)
    (track : TrackSettings.t) (k0 : Z) :
  tracksRef s !! trackId = Some track →
  (∀ k, array_get (TrackSettings.pattern track) k = true → k = Some k0) →
  lastPlayedStepRef s !! trackId = Some (Some k0 : Num.int) →
  lastPlayedStepRef (scheduleRepeat_callback time s).2 !! trackId = Some (Some k0 : Num.int)
  ∧ notes_of trackId (scheduleRepeat_callback time s).1 = [].
Proof.
  intros Htrack Honly Hlast.
  destruct (callback_track time s trackId track Htrack) as [-> ->].
  rewrite Hlast. unfold fires.
  destruct (array_get _ _) eqn:Hget; [|done].
  apply Honly in Hget as ->. by rewrite strict_ne_same.
Qed.

Lemma run_cons (a : Action) (rest : list Action) (s : Sequencer) :
  run (a :: rest) s
  = ((step a s).1 ++ (run rest (step a s).2).1, (run rest (step a s).2).2).
Proof. done. Qed.

Lemma notes_of_app (trackId : nat) (notes1 notes2 : list Note) :
  notes_of trackId (notes1 ++ notes2)
  = notes_of trackId notes1 ++ notes_of trackId notes2.
Proof. apply filter_app. Qed.

Lemma only_active_step_never_again (times : list num) (s : Sequencer)
    (trackId : nat) (track : TrackSettings.t) (k0 : Z) :
  tracksRef s !! trackId = Some track →
  (∀ k, array_get (TrackSettings.pattern track) k = true → k = Some k0) →
  lastPlayedStepRef s !! trackId = Some (Some k0 : Num.int) →
  notes_of trackId (run (Clock <$> times) s).1 = [].
Proof.
  intros Htrack Honly. revert s Htrack.
  induction times as [|time times IH]; intros s Htrack Hlast; [done|].
  rewrite fmap_cons, run_cons. cbn [fst]. rewrite notes_of_app.
  cbn [step].
  destruct (transport s).
  - destruct (only_active_step_is_silent time s trackId track k0 Htrack Honly Hlast)
      as [Hlast' ->].
    by rewrite IH.
  - by rewrite IH.
  - by rewrite IH.
Qed.

(** C3.  Two consecutive calls of the callback whose master steps map to the
    same local step of a track schedule at most one note for that track. *)
Theorem dedup_consecutive_ticks (time1 time2 : num) (s : Sequencer)
    (trackId : nat) (track : TrackSettings.t) :
  tracksRef s !! trackId = Some track →
  let r1 := scheduleRepeat_callback time1 s in
  let r2 := scheduleRepeat_callback time2 r1.2 in
  trackStep (currentStepRef s) (TrackSettings.steps track)
  = trackStep (currentStepRef r1.2) (TrackSettings.steps track) →
  length (notes_of trackId (r1.1 ++ r2.1)) ≤ 1.
Proof.
  intros Htrack r1 r2 Hsame. subst r2 r1.
  rewrite notes_of_app, length_app.
  destruct (callback_track time1 s trackId track Htrack) as [Hlast1 Hnotes1].
  assert (tracksRef (scheduleRepeat_callback time1 s).2 !! trackId = Some track)
    as Htrack' by done.
  destruct (callback_track time2 _ trackId track Htrack') as [_ Hnotes2].
  rewrite Hnotes1, Hnotes2, Hlast1, !length_if_singleton.
  destruct (fires (currentStepRef s) track (lastPlayedStepRef s !! trackId)) eqn:Hfire.
  - by rewrite (fires_twice _ _ _ _ _ Hsame Hfire).
  - match goal with |- context [fires ?c ?t ?l] => destruct (fires c t l) end; lia.
Qed.

(** C1, evaluated.  A track of four steps whose only pulse is step 0 is
    played from a fresh start.  The first cycle of 32 master steps schedules
    one note, at the very first call.  When the master step is back at 0 the
    track has left step 0 (the call before was on step 3) and enters it
    again, the pattern is active there, and yet no note is scheduled: the
    memory still holds step 0, because the inactive steps in between left it
    untouched.  Ten cycles schedule one note in all. *)
Theorem one_pulse_fires_once :
  TrackSettings.pattern (Track.settings one_pulse) = [true; false; false; false]
  ∧ notes_of 1 (run (clock 32) (playing 1 one_pulse)).1
    = [{| note_track := 1; note_time := clock_time 0;
          note_duration := default_noteDuration |}]
  ∧ (let s := (run (clock 32) (playing 1 one_pulse)).2 in
     currentStepRef s = 0
     ∧ trackStep 31 4 = Some 3%Z
     ∧ trackStep (currentStepRef s) 4 = Some 0%Z
     ∧ lastPlayedStepRef s !! 1 = Some (Some 0%Z)
     ∧ notes_of 1 (scheduleRepeat_callback (clock_time 32) s).1 = [])
  ∧ length (notes_of 1 (run (clock 320) (playing 1 one_pulse)).1) = 1.
Proof. vm_compute. repeat split; reflexivity. Qed.

(** ** Start, Stop and Pause *)

(** C8.  Stop, from any state, puts the master step back to 0 and empties
    the memory of every track; Start after it changes neither, and the first
    call of the callback then schedules a note for every track whose pattern
    is active at the local step of master step 0. *)
Theorem stop_resets (s : Sequencer) :
  let s' := stopSequencer s in
  (currentStepRef s' = 0 ∧ currentStep s' = 0 ∧ lastPlayedStepRef s' = ∅
   ∧ transport s' = stopped)
  ∧ (let s'' := startSequencer s' in
     currentStepRef s'' = 0 ∧ lastPlayedStepRef s'' = ∅ ∧ transport s'' = started
     ∧ ∀ (time : num) (trackId : nat) (track : TrackSettings.t),
         tracksRef s !! trackId = Some track →
         notes_of trackId (step (Clock time) s'').1
         = if array_get (TrackSettings.pattern track)
                (trackStep 0 (TrackSettings.steps track))
           then [{| note_track := trackId; note_time := time;
                    note_duration := noteDuration s |}]
           else []).
Proof.
  repeat split.
  intros time trackId track Htrack.
  assert (tracksRef (startSequencer (stopSequencer s)) !! trackId = Some track)
    as Htrack' by done.
  destruct (callback_track time _ trackId track Htrack') as [_ Hnotes].
  simpl step. rewrite Hnotes. unfold fires; simpl.
  by rewrite lookup_empty, andb_true_r.
Qed.

(** C9.  Pause keeps the master step and the memory of every track, and so
    does Start; the clock does nothing while paused; and the first call of
    the callback after Pause and Start is the call the sequencer would have
    made had it not been paused: from master step [k] it goes on to
    [(k + 1) mod 32]. *)
Theorem pause_resume_keeps_position (s : Sequencer) :
  (currentStepRef (pauseSequencer s) = currentStepRef s
   ∧ lastPlayedStepRef (pauseSequencer s) = lastPlayedStepRef s)
  ∧ (currentStepRef (startSequencer s) = currentStepRef s
     ∧ lastPlayedStepRef (startSequencer s) = lastPlayedStepRef s)
  ∧ (∀ time : num, step (Clock time) (pauseSequencer s) = ([], pauseSequencer s))
  ∧ (∀ time : num,
       let r := step (Clock time) (startSequencer (pauseSequencer s)) in
       r.1 = (scheduleRepeat_callback time s).1
       ∧ currentStepRef r.2 = (currentStepRef s + 1) mod 32
       ∧ lastPlayedStepRef r.2
         = lastPlayedStepRef (scheduleRepeat_callback time s).2).
Proof. repeat split. Qed.

(** ** The local step of a track *)

(** On the master steps and step counts of the sequencer the floating-point
    computation is exact: the local step is the integer quotient. *)
Lemma trackStep_exact (m n : nat) :
  m < 32 → 1 ≤ n ≤ 32 → trackStep m n = Some (Z.of_nat (m * n / 32)).
Proof.
  intros Hm [Hlo Hhi].
  assert (Forall (λ n, trackStep m (S n) = Some (Z.of_nat (m * S n / 32)))
            (seq 0 32)) as Hall.
  { revert m Hm.
    apply (forall_below
             (λ m, Forall (λ n, trackStep m (S n) = Some (Z.of_nat (m * S n / 32)))
                     (seq 0 32))).
    vm_compute. reflexivity. }
  rewrite Forall_seq in Hall.
  destruct n as [|n]; [lia|]. apply Hall. lia.
Qed.

(** C5.  A track of [n] steps, [n] from 1 to 32, is on each of its steps at
    some master step of the cycle: step [k] is reached at the master step
    [ceil (32 * k / n)]. *)
Theorem trackStep_visits_every_step (n k : nat) :
  1 ≤ n ≤ 32 → k < n → ∃ m, m < 32 ∧ trackStep m n = Some (Z.of_nat k).
Proof.
  intros Hn Hk. set (m := (32 * k + n - 1) / n).
  assert (n * m ≤ 32 * k + n - 1 < n * m + n) as [Hdown Hup].
  { pose proof (Nat.div_mod_eq (32 * k + n - 1) n) as Hdiv.
    pose proof (Nat.mod_upper_bound (32 * k + n - 1) n) as Hmod.
    fold m in Hdiv. lia. }
  assert (m < 32) as Hm by nia.
  exists m. split; [done|].
  rewrite trackStep_exact by done. do 2 f_equal.
  symmetry. apply (Nat.div_unique _ _ _ (m * n - 32 * k)); lia.
Qed.

(** ** The theorems at concrete inputs *)

Lemma generatePattern_count_16_4 :
  (1 ≤ 16 ≤ 32 ∧ 4 ≤ 16)
  ∧ length (generatePattern 16 4 0) = 16
  ∧ active_count (generatePattern 16 4 0) = 4.
Proof.
  split; [lia|]. apply (generatePattern_count 16 4); lia.
Defined.

Lemma generatePattern_rotation_10_of_4 :
  length (generatePattern 4 1 10) = 4
  ∧ 4 ≤ 10
  ∧ generatePattern 4 1 10 = generatePattern 4 1 0.
Proof.
  split; [apply (generatePattern_any_rotation 4 1 10)|].
  split; [lia|]. apply (generatePattern_any_rotation 4 1 10). lia.
Defined.


Lemma trackStep_visits_step_3_of_5 :
  (1 ≤ 5 ≤ 32 ∧ 3 < 5) ∧ ∃ m, m < 32 ∧ trackStep m 5 = Some 3%Z.
Proof.
  split; [lia|]. apply (trackStep_visits_every_step 5 3); lia.
Defined.

(** Master steps 0 and 1 are both on step 0 of a track of four steps. *)
Lemma dedup_first_two_ticks :
  tracksRef (playing 1 one_pulse) !! 1 = Some (Track.settings one_pulse)
  ∧ trackStep 0 4 = trackStep 1 4
  ∧ length
      (notes_of 1
         ((scheduleRepeat_callback (clock_time 0) (playing 1 one_pulse)).1
          ++ (scheduleRepeat_callback (clock_time 1)
                (scheduleRepeat_callback (clock_time 0) (playing 1 one_pulse)).2).1))
    ≤ 1.
Proof.
  split; [vm_compute; reflexivity|].
  split; [vm_compute; reflexivity|].
  apply (dedup_consecutive_ticks (clock_time 0) (clock_time 1) (playing 1 one_pulse)
           1 (Track.settings one_pulse)).
  - vm_compute. reflexivity.
  - vm_compute. reflexivity.
Defined.

(** Stop in the middle of a cycle, then Start: the one-pulse track is played
    again at the first call. *)
Lemma stop_then_start_one_pulse :
  let s := (run (clock 20) (playing 1 one_pulse)).2 in
  tracksRef s !! 1 = Some (Track.settings one_pulse)
  ∧ currentStepRef s = 20
  ∧ currentStepRef (stopSequencer s) = 0
  ∧ lastPlayedStepRef (stopSequencer s) = ∅
  ∧ notes_of 1 (step (Clock (clock_time 0)) (startSequencer (stopSequencer s))).1
    = [{| note_track := 1; note_time := clock_time 0;
          note_duration := default_noteDuration |}].
Proof.
  intros s.
  split; [vm_compute; reflexivity|].
  split; [vm_compute; reflexivity|].
  split; [apply (stop_resets s)|].
  split; [apply (stop_resets s)|].
  destruct (stop_resets s) as [_ (_ & _ & _ & Hfirst)].
  apply (Hfirst (clock_time 0) 1 (Track.settings one_pulse)).
  vm_compute. reflexivity.
Defined.

(** * Further properties *)

(** ** More on the generator *)

Lemma active_count_cons (b : bool) (pattern : list bool) :
  active_count (b :: pattern) = (if b then 1 else 0) + active_count pattern.
Proof.
  unfold active_count. destruct b.
  - by rewrite filter_cons_True.
  - by rewrite filter_cons_False.
Qed.

Lemma active_count_app (pattern1 pattern2 : list bool) :
  active_count (pattern1 ++ pattern2) = active_count pattern1 + active_count pattern2.
Proof. unfold active_count. by rewrite filter_app, length_app. Qed.

Lemma active_count_replicate_false (n : nat) : active_count (replicate n false) = 0.
Proof. induction n as [|n IH]; [done|]. simpl. by rewrite active_count_cons. Qed.

Lemma active_count_insert_true (pattern : list bool) (i : nat) :
  active_count (<[i := true]> pattern) ≤ S (active_count pattern).
Proof.
  revert i. induction pattern as [|b pattern IH]; intros [|i]; simpl;
    rewrite ?active_count_cons; try lia.
  specialize (IH i). lia.
Qed.

(** The two slices of the rotation step hold the entries of the pattern. *)
Lemma active_count_rotate_slices (rotations : nat) (pattern : list bool) :
  active_count (drop rotations pattern ++ take rotations pattern)
  = active_count pattern.
Proof.
  rewrite <- (take_drop rotations pattern) at 3.
  rewrite !active_count_app. lia.
Qed.

Lemma array_set_rem_count (pattern : list bool) (a : Num.int) :
  active_count (array_set pattern (Num.rem a (length pattern)) true)
  ≤ S (active_count pattern).
Proof.
  destruct (Num.rem a (length pattern)) as [z|] eqn:Hrem; simpl; [|lia].
  apply rem_Some_bound in Hrem.
  destruct (z <? 0)%Z eqn:Hneg; [lia|].
  apply Z.ltb_ge in Hneg.
  destruct (decide (Z.to_nat z < length pattern)) as [_|Hout]; [|lia].
  apply active_count_insert_true.
Qed.

Lemma generatePattern_loop_count (n steps : nat) (increment index : num)
    (pattern : list bool) :
  length pattern = steps →
  active_count (generatePattern_loop n steps increment index pattern)
  ≤ n + active_count pattern.
Proof.
  revert index pattern.
  induction n as [|n IH]; intros index pattern Hlen; [done|].
  cbn [generatePattern_loop].
  etransitivity; [apply IH; subst steps; apply array_set_rem_length|].
  subst steps. pose proof (array_set_rem_count pattern (Num.floor index)). lia.
Qed.

(** A write of [true] never clears an entry. *)
Lemma array_set_rem_keeps_true (pattern : list bool) (a : Num.int) (j : nat) :
  pattern !! j = Some true →
  array_set pattern (Num.rem a (length pattern)) true !! j = Some true.
Proof.
  intros Hj.
  destruct (Num.rem a (length pattern)) as [z|] eqn:Hrem; simpl; [|done].
  apply rem_Some_bound in Hrem.
  destruct (z <? 0)%Z eqn:Hneg; [done|].
  apply Z.ltb_ge in Hneg.
  destruct (decide (Z.to_nat z < length pattern)) as [Hin|Hout]; [|lia].
  destruct (decide (Z.to_nat z = j)) as [<-|Hne].
  - by apply list_lookup_insert_eq.
  - by rewrite list_lookup_insert_ne.
Qed.

Lemma generatePattern_loop_keeps_true (n steps : nat) (increment index : num)
    (pattern : list bool) (j : nat) :
  length pattern = steps →
  pattern !! j = Some true →
  generatePattern_loop n steps increment index pattern !! j = Some true.
Proof.
  revert index pattern.
  induction n as [|n IH]; intros index pattern Hlen Hj; [done|].
  cbn [generatePattern_loop]. subst steps.
  apply IH; [apply array_set_rem_length|by apply array_set_rem_keeps_true].
Qed.

(** The first write of the loop goes to step 0. *)
Lemma first_write (steps : nat) (pattern : list bool) :
  length pattern = S steps →
  array_set pattern (Num.rem (Num.floor (Num.of_nat 0)) (S steps)) true
  = <[0 := true]> pattern.
Proof.
  intros Hlen. change (Num.floor (Num.of_nat 0)) with (Some 0%Z).
  cbn [Num.rem]. rewrite Z.rem_0_l by lia. cbn [array_set Z.ltb Z.compare].
  change (Z.to_nat 0) with 0.
  destruct (decide (0 < length pattern)); [done|lia].
Qed.

(** Reading the rotated pattern. *)
Lemma lookup_rotate_slices (rotations i : nat) (pattern : list bool) :
  rotations ≤ length pattern → i < length pattern →
  (drop rotations pattern ++ take rotations pattern) !! i
  = pattern !! ((i + rotations) mod length pattern).
Proof.
  intros Hr Hi.
  destruct (decide (i + rotations < length pattern)) as [Hlt|Hge].
  - rewrite lookup_app_l by (rewrite length_drop; lia).
    rewrite lookup_drop, Nat.mod_small by lia. f_equal. lia.
  - rewrite lookup_app_r by (rewrite length_drop; lia).
    rewrite length_drop, lookup_take_lt by lia. f_equal.
    apply (Nat.mod_unique _ _ 1); lia.
Qed.

Lemma active_count_le_length (pattern : list bool) :
  active_count pattern ≤ length pattern.
Proof. apply length_filter. Qed.

Lemma generatePattern_rotated (steps pulses rotations : nat) :
  generatePattern steps pulses rotations
  = drop rotations (generatePattern steps pulses 0)
    ++ take rotations (generatePattern steps pulses 0).
Proof.
  rewrite generatePattern_unrotated. unfold generatePattern.
  destruct (decide (pulses = 0)); [|done].
  rewrite drop_replicate, take_replicate, <- replicate_add. f_equal. lia.
Qed.

Lemma generatePattern_rotated_lookup (steps pulses rotations i : nat) :
  rotations ≤ steps → i < steps →
  generatePattern steps pulses rotations !! i
  = generatePattern steps pulses 0 !! ((i + rotations) mod steps).
Proof.
  intros Hr Hi. rewrite generatePattern_rotated.
  pose proof (generatePattern_length steps pulses 0) as Hlen.
  rewrite lookup_rotate_slices by lia. by rewrite Hlen.
Qed.

(** The step counts and pulse counts of the sliders, checked one by one. *)
Lemma active_count_unrotated (steps pulses : nat) :
  steps ≤ 32 → pulses ≤ steps →
  active_count (generatePattern steps pulses 0) = pulses.
Proof.
  intros Hsteps Hpulses.
  assert (∀ steps, steps < 33 →
            Forall (λ pulses, active_count (generatePattern steps pulses 0) = pulses)
              (seq 0 (S steps))) as Hall.
  { apply (forall_below
             (λ steps, Forall (λ pulses,
                active_count (generatePattern steps pulses 0) = pulses)
                (seq 0 (S steps)))).
    vm_compute. reflexivity. }
  specialize (Hall steps ltac:(lia)).
  rewrite Forall_seq in Hall. apply Hall. lia.
Qed.

(** X1.  A pattern never has more active steps than pulses were asked for,
    nor more than it has steps, whatever the three arguments are. *)
Theorem generatePattern_at_most_pulses (steps pulses rotations : nat) :
  active_count (generatePattern steps pulses rotations) ≤ Nat.min pulses steps.
Proof.
  apply Nat.min_glb.
  - rewrite generatePattern_rotated, active_count_rotate_slices,
      generatePattern_unrotated.
    destruct (decide (pulses = 0)).
    + rewrite active_count_replicate_false. lia.
    + etransitivity; [apply generatePattern_loop_count, length_replicate|].
      rewrite active_count_replicate_false. lia.
  - etransitivity; [apply active_count_le_length|].
    by rewrite generatePattern_length.
Qed.

(** X2.  A rotation of at most [steps] is a rotation to the left: entry [i]
    of the rotated pattern is entry [(i + rotations) mod steps] of the
    unrotated one. *)
Theorem generatePattern_rotates_left (steps pulses rotations : nat) :
  rotations ≤ steps →
  generatePattern steps pulses rotations = rotate rotations (generatePattern steps pulses 0)
  ∧ ∀ i, i < steps →
      generatePattern steps pulses rotations !! i
      = generatePattern steps pulses 0 !! ((i + rotations) mod steps).
Proof.
  intros Hr. split.
  - rewrite generatePattern_rotated. unfold rotate.
    rewrite generatePattern_length.
    destruct (decide (rotations = steps)) as [->|Hne].
    + destruct steps as [|steps]; [done|].
      rewrite Nat.Div0.mod_same.
      rewrite rotate_slices_ge, rotate_slices_0; [done|].
      by rewrite generatePattern_length.
    + by rewrite Nat.mod_small by lia.
  - intros i Hi. by apply generatePattern_rotated_lookup.
Qed.

(** X3.  Rotating, by any amount, keeps the number of active steps; with at
    most 32 steps and no more pulses than steps that number is [pulses]. *)
Theorem generatePattern_rotation_keeps_pulses (steps pulses rotations : nat) :
  active_count (generatePattern steps pulses rotations)
  = active_count (generatePattern steps pulses 0)
  ∧ (steps ≤ 32 → pulses ≤ steps →
     active_count (generatePattern steps pulses rotations) = pulses).
Proof.
  assert (active_count (generatePattern steps pulses rotations)
          = active_count (generatePattern steps pulses 0)) as Heq.
  { by rewrite generatePattern_rotated, active_count_rotate_slices. }
  split; [done|]. intros Hsteps Hpulses.
  rewrite Heq. by apply active_count_unrotated.
Qed.

(** The unrotated pattern has a pulse on step 0. *)
Lemma generatePattern_first_step (steps pulses : nat) :
  1 ≤ steps → 1 ≤ pulses → generatePattern steps pulses 0 !! 0 = Some true.
Proof.
  intros Hsteps Hpulses. rewrite generatePattern_unrotated.
  destruct (decide (pulses = 0)); [lia|].
  destruct pulses as [|pulses]; [lia|]. destruct steps as [|steps]; [lia|].
  cbn [generatePattern_loop].
  apply generatePattern_loop_keeps_true.
  - rewrite first_write by apply length_replicate.
    by rewrite length_insert, length_replicate.
  - rewrite first_write by apply length_replicate.
    apply list_lookup_insert_eq. rewrite length_replicate. lia.
Qed.

Lemma rotated_back_to_start (steps rotations : nat) :
  1 ≤ steps → rotations ≤ steps →
  ((steps - rotations) mod steps + rotations) mod steps = 0
  ∧ (steps - rotations) mod steps < steps.
Proof.
  intros Hsteps Hr. split; [|apply Nat.mod_upper_bound; lia].
  destruct (decide (rotations = 0)) as [->|Hne].
  - by rewrite Nat.sub_0_r, Nat.Div0.mod_same, Nat.add_0_r, Nat.Div0.mod_0_l.
  - rewrite (Nat.mod_small (steps - rotations)) by lia.
    replace (steps - rotations + rotations) with steps by lia.
    apply Nat.Div0.mod_same.
Qed.

(** X4.  With at least one step and one pulse the unrotated pattern starts
    with a pulse, and a rotation of at most [steps] moves that pulse to step
    [(steps - rotations) mod steps]. *)
Theorem generatePattern_downbeat (steps pulses rotations : nat) :
  1 ≤ steps → 1 ≤ pulses → rotations ≤ steps →
  generatePattern steps pulses rotations !! ((steps - rotations) mod steps)
  = Some true.
Proof.
  intros Hsteps Hpulses Hr.
  destruct (rotated_back_to_start steps rotations Hsteps Hr) as [Hback Hlt].
  rewrite generatePattern_rotated_lookup, Hback by done.
  by apply generatePattern_first_step.
Qed.

Lemma generatePattern_one_pulse_unrotated (steps : nat) :
  1 ≤ steps → generatePattern steps 1 0 = <[0 := true]> (replicate steps false).
Proof.
  intros Hsteps. rewrite generatePattern_unrotated.
  destruct (decide (1 = 0)); [lia|]. destruct steps as [|steps]; [lia|].
  cbn [generatePattern_loop]. apply first_write, length_replicate.
Qed.

(** X5.  One pulse gives a pattern with exactly one active step, at
    [(steps - rotations) mod steps]. *)
Theorem generatePattern_one_pulse (steps rotations : nat) :
  1 ≤ steps → rotations ≤ steps →
  generatePattern steps 1 rotations
  = <[(steps - rotations) mod steps := true]> (replicate steps false).
Proof.
  intros Hsteps Hr.
  destruct (rotated_back_to_start steps rotations Hsteps Hr) as [Hback Hlt].
  apply list_eq. intros i.
  destruct (decide (i < steps)) as [Hi|Hi].
  - rewrite generatePattern_rotated_lookup, generatePattern_one_pulse_unrotated by done.
    assert ((i + rotations) mod steps < steps) as Hm by (apply Nat.mod_upper_bound; lia).
    destruct (decide (i = (steps - rotations) mod steps)) as [->|Hne].
    + rewrite Hback. by rewrite !list_lookup_insert_eq by (rewrite length_replicate; lia).
    + rewrite (list_lookup_insert_ne _ ((steps - rotations) mod steps)) by done.
      rewrite list_lookup_insert_ne; [by rewrite !lookup_replicate_2|].
      intros Hzero. apply Hne.
      destruct (decide (i + rotations < steps)) as [Hsmall|Hbig].
      * rewrite Nat.mod_small in Hzero by done.
        assert (rotations = 0 ∧ i = 0) as [-> ->] by lia.
        by rewrite Nat.sub_0_r, Nat.Div0.mod_same.
      * assert (i + rotations = steps) as Hsum.
        { assert ((i + rotations) mod steps = i + rotations - steps) as Hmod.
          { symmetry. apply (Nat.mod_unique _ _ 1); lia. }
          lia. }
        rewrite Nat.mod_small by lia. lia.
  - rewrite !lookup_ge_None_2; [done| |].
    + rewrite length_insert, length_replicate. lia.
    + rewrite generatePattern_length. lia.
Qed.

(** ** More on the local step *)

(** X6.  Over the 32 master steps a track of 1 to 32 steps stays inside its
    pattern, starts on step 0, ends on its last step, and from one master
    step to the next stays or moves one step forward. *)
Theorem trackStep_walks_the_track (m n : nat) :
  m < 32 → 1 ≤ n ≤ 32 →
  ∃ k : nat,
    trackStep m n = Some (Z.of_nat k) ∧ k < n
    ∧ (m = 0 → k = 0)
    ∧ (m = 31 → k = n - 1)
    ∧ (m < 31 → ∃ k' : nat,
         trackStep (S m) n = Some (Z.of_nat k') ∧ k ≤ k' ≤ S k).
Proof.
  intros Hm Hn. exists (m * n / 32).
  split; [by apply trackStep_exact|].
  split; [apply Nat.Div0.div_lt_upper_bound; nia|].
  split; [by intros ->|].
  split.
  - intros ->. symmetry. apply (Nat.div_unique _ _ _ (32 - n)); lia.
  - intros Hm'. exists (S m * n / 32).
    split; [apply trackStep_exact; lia|].
    pose proof (Nat.div_mod_eq (m * n) 32) as H1.
    pose proof (Nat.mod_upper_bound (m * n) 32) as H2.
    pose proof (Nat.div_mod_eq (S m * n) 32) as H3.
    pose proof (Nat.mod_upper_bound (S m * n) 32) as H4.
    nia.
Qed.

(** ** What a track reports *)

(** X7.  Whatever the sliders did, the settings a track reports agree with
    each other: 1 to 32 steps, no more pulses than steps, a pattern as long
    as the steps, with as many active steps as the pulses reported. *)
Theorem reported_settings_agree (s : Track.state) :
  Track.reachable s →
  let settings := Track.settings s in
  1 ≤ TrackSettings.steps settings ≤ 32
  ∧ TrackSettings.pulses settings ≤ TrackSettings.steps settings
  ∧ length (TrackSettings.pattern settings) = TrackSettings.steps settings
  ∧ TrackSettings.patternLength settings = TrackSettings.steps settings
  ∧ active_count (TrackSettings.pattern settings) = TrackSettings.pulses settings.
Proof.
  intros Hreach. destruct (reachable_bounds s Hreach) as (Hsteps & Hpulses & Hrot).
  unfold Track.settings, Track.newPattern.
  cbn [TrackSettings.steps TrackSettings.pulses TrackSettings.pattern
       TrackSettings.patternLength].
  split; [done|]. split; [lia|].
  split; [apply generatePattern_length|]. split; [done|].
  rewrite generatePattern_rotated, active_count_rotate_slices.
  apply active_count_unrotated; lia.
Qed.

(** ** Invariants of the sequencer *)

(** A property that every action keeps holds after every run. *)
Lemma run_invariant (P : Sequencer → Prop) (actions : list Action) (s : Sequencer) :
  (∀ a s, P s → P (step a s).2) → P s → P (run actions s).2.
Proof.
  intros Hstep. revert s.
  induction actions as [|a actions IH]; intros s Hs; [done|].
  rewrite run_cons. cbn [snd]. by apply IH, Hstep.
Qed.

(** X8.  After any sequence of actions on a freshly mounted sequencer the
    master step is below 32 and the displayed step is the master step. *)
Theorem master_step_in_cycle (noteDuration : num) (actions : list Action) :
  let s := (run actions (mount noteDuration)).2 in
  currentStepRef s < 32 ∧ currentStep s = currentStepRef s.
Proof.
  apply (run_invariant (λ s, currentStepRef s < 32 ∧ currentStep s = currentStepRef s)).
  - intros a s [Hlt Heq]. destruct a; cbn [step]; try done.
    + cbn. lia.
    + destruct (transport s); [|done..].
      cbn [scheduleRepeat_callback snd currentStepRef currentStep].
      split; [apply Nat.mod_upper_bound; lia|done].
  - cbn. lia.
Qed.

Lemma array_get_true_nonneg (a : list bool) (k : Num.int) :
  array_get a k = true → ∃ z : Z, k = Some z ∧ (0 ≤ z)%Z.
Proof.
  destruct k as [z|]; [|discriminate]. cbn.
  destruct (z <? 0)%Z eqn:Hneg; [discriminate|]. apply Z.ltb_ge in Hneg. eauto.
Qed.

Lemma callback_memory_ok (time : num) (s : Sequencer) :
  memory_ok s → memory_ok (scheduleRepeat_callback time s).2.
Proof.
  intros Hok trackId v Hv.
  destruct (tracksRef s !! trackId) as [track|] eqn:Htrack.
  - destruct (callback_track time s trackId track Htrack) as [Hlast _].
    rewrite Hlast in Hv. split; [by rewrite (proj1 (callback_frame time s)), Htrack|].
    destruct (fires _ _ _) eqn:Hfire.
    + injection Hv as <-. unfold fires in Hfire.
      apply andb_prop in Hfire as [Hget _]. apply (array_get_true_nonneg _ _ Hget).
    + by apply (Hok trackId).
  - destruct (callback_no_track time s trackId Htrack) as [Hlast _].
    rewrite Hlast in Hv. destruct (Hok trackId v Hv) as [[track Hsome] _].
    congruence.
Qed.

(** X9.  After any sequence of actions on a freshly mounted sequencer the
    memory holds entries for registered tracks only, and each entry is a
    step: a non-negative integer, never [NaN]. *)
Theorem memory_holds_steps_of_tracks (noteDuration : num) (actions : list Action) :
  let s := (run actions (mount noteDuration)).2 in
  ∀ (trackId : nat) (v : Num.int),
    lastPlayedStepRef s !! trackId = Some v →
    is_Some (tracksRef s !! trackId) ∧ ∃ z : Z, v = Some z ∧ (0 ≤ z)%Z.
Proof.
  apply (run_invariant memory_ok).
  - intros a s Hok. destruct a; cbn [step snd].
    + exact Hok.
    + intros trackId v Hv. cbn in Hv. by rewrite lookup_empty in Hv.
    + exact Hok.
    + intros id v Hv. cbn in Hv. destruct (Hok id v Hv) as [Hsome Hz].
      split; [|done]. cbn. destruct (decide (trackId = id)) as [->|Hne].
      * rewrite lookup_insert_eq. eauto.
      * by rewrite lookup_insert_ne.
    + destruct (transport s); [by apply callback_memory_ok|done..].
  - intros trackId v Hv. cbn in Hv. by rewrite lookup_empty in Hv.
Qed.

(** X10.  One call of the callback schedules a note exactly for the
    registered tracks whose condition of line 464 holds, with the time of
    the call and the current note length, and at most one note per track. *)
Theorem callback_notes (time : num) (s : Sequencer) (note : Note) :
  (note ∈ (scheduleRepeat_callback time s).1
   ↔ ∃ track : TrackSettings.t,
       tracksRef s !! note_track note = Some track
       ∧ fires (currentStepRef s) track (lastPlayedStepRef s !! note_track note) = true
       ∧ note_time note = time ∧ note_duration note = noteDuration s)
  ∧ ∀ trackId : nat, length (notes_of trackId (scheduleRepeat_callback time s).1) ≤ 1.
Proof.
  split.
  - split.
    + intros Hin.
      assert (note ∈ notes_of (note_track note) (scheduleRepeat_callback time s).1)
        as Hin' by (by apply list_elem_of_filter).
      destruct (tracksRef s !! note_track note) as [track|] eqn:Htrack.
      * destruct (callback_track time s _ track Htrack) as [_ Hnotes].
        rewrite Hnotes in Hin'. exists track.
        destruct (fires _ _ _); [|by apply elem_of_nil in Hin'].
        apply list_elem_of_singleton in Hin' as ->. done.
      * destruct (callback_no_track time s _ Htrack) as [_ Hnotes].
        rewrite Hnotes in Hin'. by apply elem_of_nil in Hin'.
    + intros (track & Htrack & Hfire & Htime & Hduration).
      destruct (callback_track time s _ track Htrack) as [_ Hnotes].
      rewrite Hfire in Hnotes.
      assert (note ∈ notes_of (note_track note) (scheduleRepeat_callback time s).1)
        as Hin.
      { rewrite Hnotes. destruct note as [id t d]. cbn in *. subst.
        apply list_elem_of_singleton. done. }
      unfold notes_of in Hin. apply list_elem_of_filter in Hin. by destruct Hin.
  - intros trackId.
    destruct (tracksRef s !! trackId) as [track|] eqn:Htrack.
    + destruct (callback_track time s _ track Htrack) as [_ ->].
      rewrite length_if_singleton. destruct (fires _ _ _); lia.
    + destruct (callback_no_track time s _ Htrack) as [_ ->]. cbn. lia.
Qed.

(** X11.  New settings for a track between two calls do not reset its
    memory: if the local step is the same at both calls, the two calls
    schedule at most one note for the track, whatever the new pattern is. *)
Theorem dedup_survives_new_settings (time1 time2 : num) (s : Sequencer)
    (trackId : nat) (track settings : TrackSettings.t) :
  tracksRef s !! trackId = Some track →
  let r1 := scheduleRepeat_callback time1 s in
  let r2 := scheduleRepeat_callback time2 (handleSettingsChange trackId settings r1.2) in
  trackStep (currentStepRef s) (TrackSettings.steps track)
  = trackStep (currentStepRef r1.2) (TrackSettings.steps settings) →
  length (notes_of trackId (r1.1 ++ r2.1)) ≤ 1.
Proof.
  intros Htrack r1 r2 Hsame. subst r2 r1.
  rewrite notes_of_app, length_app.
  destruct (callback_track time1 s trackId track Htrack) as [Hlast1 Hnotes1].
  assert (tracksRef (handleSettingsChange trackId settings
                       (scheduleRepeat_callback time1 s).2) !! trackId
          = Some settings) as Htrack' by apply lookup_insert_eq.
  destruct (callback_track time2 _ trackId settings Htrack') as [_ Hnotes2].
  rewrite Hnotes1, Hnotes2, !length_if_singleton.
  change (lastPlayedStepRef (handleSettingsChange trackId settings
            (scheduleRepeat_callback time1 s).2))
    with (lastPlayedStepRef (scheduleRepeat_callback time1 s).2).
  change (currentStepRef (handleSettingsChange trackId settings
            (scheduleRepeat_callback time1 s).2))
    with (currentStepRef (scheduleRepeat_callback time1 s).2).
  rewrite Hlast1.
  destruct (fires (currentStepRef s) track (lastPlayedStepRef s !! trackId)) eqn:Hfire.
  - by rewrite (fires_twice _ _ _ _ _ Hsame Hfire).
  - match goal with |- context [fires ?c ?t ?l] => destruct (fires c t l) end; lia.
Qed.

(** ** A track through the cycles *)

Lemma local_steps_app (n a b c : nat) :
  c < 32 →
  local_steps c n (a + b) = local_steps c n a ++ local_steps ((c + a) mod 32) n b.
Proof.
  revert c. induction a as [|a IH]; intros c Hc.
  - by rewrite Nat.add_0_r, Nat.mod_small.
  - cbn [Nat.add local_steps app]. f_equal.
    rewrite IH by (apply Nat.mod_upper_bound; lia).
    rewrite Nat.Div0.add_mod_idemp_l. do 3 f_equal. lia.
Qed.

Lemma length_local_steps (c n count : nat) : length (local_steps c n count) = count.
Proof. revert c. induction count as [|count IH]; intros c; cbn; [done|]. by rewrite IH. Qed.

Lemma track_run_app (pattern : list bool) (last : option Num.int) (ks1 ks2 : list Num.int) :
  track_run pattern last (ks1 ++ ks2)
  = ((track_run pattern last ks1).1
     + (track_run pattern (track_run pattern last ks1).2 ks2).1,
     (track_run pattern (track_run pattern last ks1).2 ks2).2).
Proof.
  revert last. induction ks1 as [|k ks1 IH]; intros last.
  - cbn. by destruct (track_run pattern last ks2).
  - cbn [app track_run]. destruct (array_get pattern k && strict_ne last k).
    + cbn. rewrite IH. done.
    + apply IH.
Qed.

(** The callback and the track followed alone agree. *)
Lemma run_clock_track (times : list num) (s : Sequencer) (trackId : nat)
    (track : TrackSettings.t) :
  transport s = started →
  tracksRef s !! trackId = Some track →
  let r := run (Clock <$> times) s in
  let t := track_run (TrackSettings.pattern track) (lastPlayedStepRef s !! trackId)
             (local_steps (currentStepRef s) (TrackSettings.steps track) (length times)) in
  length (notes_of trackId r.1) = t.1
  ∧ lastPlayedStepRef r.2 !! trackId = t.2.
Proof.
  revert s. induction times as [|time times IH]; intros s Hstarted Htrack; [done|].
  rewrite fmap_cons, run_cons. cbn [fst snd length local_steps track_run].
  rewrite notes_of_app, length_app. cbn [step]. rewrite Hstarted.
  destruct (callback_track time s trackId track Htrack) as [Hlast Hnotes].
  destruct (IH (scheduleRepeat_callback time s).2 Hstarted Htrack) as [IHn IHl].
  rewrite IHn, IHl, Hnotes, Hlast, length_if_singleton.
  change (currentStepRef (scheduleRepeat_callback time s).2)
    with ((currentStepRef s + 1) mod 32).
  unfold fires. destruct (_ && _); cbn; done.
Qed.

Lemma track_run_repeat (pattern : list bool) (last : option Num.int) (k : Num.int)
    (ks : list Num.int) :
  track_run pattern last (k :: k :: ks) = track_run pattern last (k :: ks).
Proof.
  cbn [track_run].
  destruct (array_get pattern k) eqn:Hget; [|done].
  apply array_get_true_Some in Hget as [z ->].
  destruct (strict_ne last (Some z)) eqn:Hne; cbn [andb].
  - by rewrite strict_ne_same.
  - done.
Qed.

Lemma track_run_dedup (pattern : list bool) (last : option Num.int) (ks : list Num.int) :
  track_run pattern last (dedup_adjacent ks) = track_run pattern last ks.
Proof.
  revert last. induction ks as [|k ks IH]; intros last; [done|].
  destruct ks as [|k' ks]; [done|].
  cbn [dedup_adjacent]. destruct (decide (k = k')) as [<-|Hne].
  - rewrite track_run_repeat. apply IH.
  - cbn [track_run]. destruct (_ && _); by rewrite IH.
Qed.

(** A cycle of 32 master steps takes a track through its steps in order. *)
Lemma local_steps_cycle (n : nat) :
  1 ≤ n ≤ 32 → dedup_adjacent (local_steps 0 n 32) = step_index <$> seq 0 n.
Proof.
  intros Hn. destruct n as [|n]; [lia|].
  assert (n < 32) as Hlt by lia. clear Hn. revert n Hlt.
  apply (forall_below
           (λ n, dedup_adjacent (local_steps 0 (S n) 32) = step_index <$> seq 0 (S n))).
  vm_compute. reflexivity.
Qed.

Lemma array_get_step_index (pattern : list bool) (j : nat) :
  array_get pattern (step_index j) = default false (pattern !! j).
Proof.
  unfold array_get, step_index.
  destruct (Z.of_nat j <? 0)%Z eqn:Hneg; [apply Z.ltb_lt in Hneg; lia|].
  by rewrite Nat2Z.id.
Qed.

Lemma strict_ne_below (last : option Num.int) (i : nat) :
  below last i → strict_ne last (step_index i) = true.
Proof.
  destruct last as [[z|]|]; cbn; [|done..].
  intros Hlt. apply negb_true_iff, Z.eqb_neq. lia.
Qed.

Lemma strict_ne_step_index (a i : nat) :
  a ≠ i → strict_ne (Some (step_index a)) (step_index i) = true.
Proof. intros Hne. cbn. apply negb_true_iff, Z.eqb_neq. lia. Qed.

Lemma active_count_pos (pattern : list bool) (j : nat) :
  pattern !! j = Some true → 1 ≤ active_count pattern.
Proof.
  revert j. induction pattern as [|b pattern IH]; intros [|j] Hj; try done.
  - injection Hj as ->. rewrite active_count_cons. lia.
  - rewrite active_count_cons. specialize (IH j Hj). lia.
Qed.

Lemma active_count_pos_inv (pattern : list bool) :
  1 ≤ active_count pattern → ∃ j, pattern !! j = Some true.
Proof.
  induction pattern as [|b pattern IH]; [cbn; lia|].
  rewrite active_count_cons. destruct b.
  - intros _. by exists 0.
  - intros Hc. destruct IH as [j Hj]; [lia|]. by exists (S j).
Qed.

Lemma two_active (pattern : list bool) :
  2 ≤ active_count pattern →
  ∃ j1 j2, j1 < j2 ∧ pattern !! j1 = Some true ∧ pattern !! j2 = Some true.
Proof.
  induction pattern as [|b pattern IH]; [cbn; lia|].
  rewrite active_count_cons. destruct b.
  - intros Hc. destruct (active_count_pos_inv pattern) as [j Hj]; [lia|].
    exists 0, (S j). split; [lia|done].
  - intros Hc. destruct IH as (j1 & j2 & Hlt & H1 & H2); [lia|].
    exists (S j1), (S j2). split; [lia|done].
Qed.

Lemma one_active (pattern : list bool) (j1 j2 : nat) :
  active_count pattern = 1 →
  pattern !! j1 = Some true → pattern !! j2 = Some true → j1 = j2.
Proof.
  revert j1 j2. induction pattern as [|b pattern IH]; intros j1 j2; [done|].
  rewrite active_count_cons. intros Hc H1 H2.
  destruct j1 as [|j1], j2 as [|j2]; [done| | |].
  - injection H1 as ->. change (pattern !! j2 = Some true) in H2.
    apply active_count_pos in H2. cbv iota in Hc. lia.
  - injection H2 as ->. change (pattern !! j1 = Some true) in H1.
    apply active_count_pos in H1. cbv iota in Hc. lia.
  - change (pattern !! j1 = Some true) in H1.
    change (pattern !! j2 = Some true) in H2.
    f_equal. apply IH; [|done..].
    destruct b; [|done]. apply active_count_pos in H1. lia.
Qed.

Lemma drop_cons_inv (pattern q : list bool) (i : nat) (b : bool) :
  drop i pattern = b :: q → pattern !! i = Some b ∧ drop (S i) pattern = q.
Proof.
  intros Hdrop.
  assert (pattern !! i = Some b) as Hi.
  { rewrite <- (Nat.add_0_r i), <- lookup_drop, Hdrop. done. }
  split; [done|]. rewrite (drop_S _ _ _ Hi) in Hdrop. by injection Hdrop.
Qed.

(** From step [i] to the end of the pattern, with a memory that holds no
    step of this stretch: every active step is played, and the memory ends
    on the last of them. *)
Lemma track_run_forward (pattern q : list bool) (i : nat) (last : option Num.int) :
  drop i pattern = q → below last i →
  let r := track_run pattern last (step_index <$> seq i (length q)) in
  r.1 = active_count q
  ∧ ((active_count q = 0 ∧ r.2 = last)
     ∨ ∃ m, i ≤ m ∧ r.2 = Some (step_index m) ∧ pattern !! m = Some true
            ∧ ∀ a, i ≤ a → pattern !! a = Some true → a ≤ m).
Proof.
  revert i last. induction q as [|b q IH]; intros i last Hdrop Hbelow.
  { cbn. split; [done|]. left. done. }
  destruct (drop_cons_inv pattern q i b Hdrop) as [Hi Hdrop'].
  cbn [length seq fmap list_fmap track_run].
  rewrite array_get_step_index, Hi, active_count_cons. cbn [default].
  destruct b.
  - rewrite strict_ne_below by done. cbn [andb fst snd].
    destruct (IH (S i) (Some (step_index i)) Hdrop') as [Hcount Hlast].
    { cbn. lia. }
    split; [cbn in Hcount |- *; lia|]. right.
    destruct Hlast as [[Hzero Hlast]|(m & Hm & Hlast & Hact & Hmax)].
    + exists i. split; [done|]. split; [done|]. split; [done|].
      intros a Ha Hacta. destruct (decide (a = i)) as [->|Hne]; [done|].
      assert (q !! (a - S i) = Some true) as Hq.
      { rewrite <- Hdrop', lookup_drop. rewrite <- Hacta. f_equal. lia. }
      apply active_count_pos in Hq. lia.
    + exists m. split; [lia|]. split; [done|]. split; [done|].
      intros a Ha Hacta. destruct (decide (a = i)) as [->|Hne]; [lia|].
      apply Hmax; [lia|done].
  - cbn [andb].
    destruct (IH (S i) last Hdrop') as [Hcount Hlast].
    { destruct last as [[z|]|]; cbn in *; lia. }
    split; [cbn in Hcount |- *; lia|].
    destruct Hlast as [[Hzero Hlast]|(m & Hm & Hlast & Hact & Hmax)].
    + left. split; [lia|done].
    + right. exists m. split; [lia|]. split; [done|]. split; [done|].
      intros a Ha Hacta. destruct (decide (a = i)) as [->|Hne]; [congruence|].
      apply Hmax; [lia|done].
Qed.

(** The same stretch with a memory that holds a later active step. *)
Lemma track_run_steady (pattern q : list bool) (i a j : nat) :
  drop i pattern = q → i ≤ j < a →
  pattern !! j = Some true → pattern !! a = Some true →
  let r := track_run pattern (Some (step_index a)) (step_index <$> seq i (length q)) in
  r.1 = active_count q ∧ after_another pattern r.2.
Proof.
  revert i. induction q as [|b q IH]; intros i Hdrop Hj Hactj Hacta.
  { apply lookup_lt_Some in Hactj.
    apply (f_equal length) in Hdrop. rewrite length_drop in Hdrop. cbn in Hdrop. lia. }
  destruct (drop_cons_inv pattern q i b Hdrop) as [Hi Hdrop'].
  cbn [length seq fmap list_fmap track_run].
  rewrite array_get_step_index, Hi, active_count_cons. cbn [default].
  destruct b.
  - rewrite strict_ne_step_index by lia. cbn [andb fst snd].
    destruct (track_run_forward pattern q (S i) (Some (step_index i)) Hdrop')
      as [Hcount Hlast].
    { cbn. lia. }
    split; [cbn in Hcount |- *; lia|].
    destruct Hlast as [[Hzero _]|(m & Hm & Hlast & Hact & Hmax)].
    + assert (q !! (a - S i) = Some true) as Hq.
      { rewrite <- Hdrop', lookup_drop. rewrite <- Hacta. f_equal. lia. }
      apply active_count_pos in Hq. lia.
    + exists m, i. split; [done|]. split; [lia|]. done.
  - cbn [andb]. assert (i ≠ j) as Hne by congruence.
    destruct (IH (S i) Hdrop') as [Hcount Hlast]; [lia|done..|].
    split; [cbn in Hcount |- *; lia|done].
Qed.

(** One cycle of a track of [n] steps, from master step 0. *)
Lemma cycle_fresh (pattern : list bool) (n : nat) (last : option Num.int) :
  1 ≤ n ≤ 32 → length pattern = n → below last 0 →
  let r := track_run pattern last (local_steps 0 n 32) in
  r.1 = active_count pattern
  ∧ (2 ≤ active_count pattern → after_another pattern r.2)
  ∧ (active_count pattern = 1 →
     ∃ m, r.2 = Some (step_index m) ∧ pattern !! m = Some true).
Proof.
  intros Hn Hlen Hbelow.
  rewrite <- track_run_dedup, local_steps_cycle, <- Hlen by done.
  destruct (track_run_forward pattern pattern 0 last (drop_0 _) Hbelow)
    as [Hcount Hlast].
  split; [done|]. split.
  - intros Htwo. destruct Hlast as [[Hzero _]|(m & _ & Hlast & Hact & Hmax)]; [lia|].
    destruct (two_active pattern Htwo) as (j1 & j2 & Hlt & H1 & H2).
    exists m, j1. split; [done|]. split; [|done].
    specialize (Hmax j2 ltac:(lia) H2). lia.
  - intros Hone. destruct Hlast as [[Hzero _]|(m & _ & Hlast & Hact & _)]; [lia|].
    by exists m.
Qed.

Lemma cycle_steady (pattern : list bool) (n : nat) (last : option Num.int) :
  1 ≤ n ≤ 32 → length pattern = n → after_another pattern last →
  let r := track_run pattern last (local_steps 0 n 32) in
  r.1 = active_count pattern ∧ after_another pattern r.2.
Proof.
  intros Hn Hlen (a & j & -> & Hlt & Hactj & Hacta).
  rewrite <- track_run_dedup, local_steps_cycle, <- Hlen by done.
  apply (track_run_steady pattern pattern 0 a j (drop_0 _)); [lia|done..].
Qed.

Lemma cycles_steady (pattern : list bool) (n c : nat) (last : option Num.int) :
  1 ≤ n ≤ 32 → length pattern = n → after_another pattern last →
  let r := track_run pattern last (local_steps 0 n (32 * c)) in
  r.1 = c * active_count pattern ∧ after_another pattern r.2.
Proof.
  intros Hn Hlen. revert last. induction c as [|c IH]; intros last Hlast; [done|].
  replace (32 * S c) with (32 + 32 * c) by lia.
  rewrite local_steps_app by lia. change ((0 + 32) mod 32) with 0.
  rewrite track_run_app. cbn [fst snd].
  destruct (cycle_steady pattern n last Hn Hlen Hlast) as [Hcount Hlast'].
  destruct (IH _ Hlast') as [IHcount IHlast].
  split; [lia|done].
Qed.

(** With one active step, the memory that holds it silences the track. *)
Lemma track_run_silent (pattern : list bool) (m : nat) (ks : list Num.int) :
  active_count pattern = 1 → pattern !! m = Some true →
  track_run pattern (Some (step_index m)) ks = (0, Some (step_index m)).
Proof.
  intros Hone Hm. induction ks as [|k ks IH]; [done|].
  cbn [track_run].
  destruct (array_get pattern k) eqn:Hget; [|done].
  destruct (array_get_true_nonneg _ _ Hget) as (z & -> & Hz).
  assert (pattern !! Z.to_nat z = Some true) as Hk.
  { unfold array_get in Hget. destruct (z <? 0)%Z; [done|].
    destruct (pattern !! Z.to_nat z) as [[|]|]; done. }
  pose proof (one_active pattern _ _ Hone Hk Hm) as Heq.
  assert (z = Z.of_nat m) as -> by lia.
  unfold step_index in *. by rewrite strict_ne_same.
Qed.

Example getNoteNameFromFrequency_450 : getNoteNameFromFrequency (Num.of_Z 450) = Some "A4".
Proof. vm_compute. reflexivity. Qed.
Example getNoteNameFromFrequency_NaN : getNoteNameFromFrequency S754_nan = Some "C4".
Proof. vm_compute. reflexivity. Qed.
Example noteName_off_the_scale : noteName (Num.of_Z 7) = "undefined3".
Proof. vm_compute. reflexivity. Qed.

(** ** Nearest notes *)

(** The comparison of numbers is a strict order. *)
Lemma SFltb_irrefl (x : spec_float) : SFltb x x = false.
Proof.
  unfold SFltb, SFcompare.
  destruct x as [s|s| |s m e]; try (by destruct s); try done.
  pose proof (Pos.compare_refl m) as Hm. unfold Pos.compare in Hm.
  rewrite Z.compare_refl, Hm. by destruct s.
Qed.

Lemma SFltb_trans (x y z : spec_float) :
  SFltb x y = true → SFltb y z = true → SFltb x z = true.
Proof.
  unfold SFltb, SFcompare.
  destruct x as [sx|sx| |sx mx ex], y as [sy|sy| |sy my ey],
    z as [sz|sz| |sz mz ez];
    try (destruct sx); try (destruct sy); try (destruct sz); try done.
  all: pose proof (Pos.compare_spec mx my) as Hxy;
       pose proof (Pos.compare_spec my mz) as Hyz;
       pose proof (Pos.compare_spec mx mz) as Hxz;
       unfold Pos.compare in Hxy, Hyz, Hxz.
  all: destruct (Z.compare_spec ex ey), (Z.compare_spec ey ez), (Z.compare_spec ex ez);
    try done; try lia.
  all: destruct Hxy, Hyz, Hxz; cbn; try done; try lia.
Qed.

Lemma nearer_cases (freq prev curr : num) :
  nearer freq prev curr = prev ∨ nearer freq prev curr = curr.
Proof. unfold nearer. destruct (SFltb _ _); auto. Qed.

Lemma foldl_nearer_elem (freq first : num) (rest : list num) :
  foldl (nearer freq) first rest ∈ first :: rest.
Proof.
  revert first. induction rest as [|x rest IH]; intros first; [apply list_elem_of_here|].
  cbn [foldl]. specialize (IH (nearer freq first x)).
  apply elem_of_cons in IH as [->|IH].
  - destruct (nearer_cases freq first x) as [->| ->].
    + apply list_elem_of_here.
    + apply list_elem_of_further, list_elem_of_here.
  - by do 2 apply list_elem_of_further.
Qed.

(** No element is strictly nearer than the one [reduce] keeps. *)
Lemma foldl_nearer_least (freq first : num) (rest : list num) (note : num) :
  note ∈ first :: rest →
  SFltb (distance freq note) (distance freq (foldl (nearer freq) first rest)) = false.
Proof.
  revert note. induction rest as [|x rest IH] using rev_ind; intros note Hin.
  - apply list_elem_of_singleton in Hin as ->. apply SFltb_irrefl.
  - rewrite foldl_snoc. unfold nearer at 1.
    destruct (SFltb (distance freq x) _) eqn:Hlt.
    + destruct (SFltb (distance freq note) (distance freq x)) eqn:Hnote; [|done].
      rewrite app_comm_cons in Hin. apply elem_of_app in Hin as [Hin|Hin].
      * rewrite <- (IH note Hin). symmetry. by apply (SFltb_trans _ _ _ Hnote).
      * apply list_elem_of_singleton in Hin as ->. by rewrite SFltb_irrefl in Hnote.
    + rewrite app_comm_cons in Hin. apply elem_of_app in Hin as [Hin|Hin].
      * by apply IH.
      * by apply list_elem_of_singleton in Hin as ->.
Qed.

Lemma snapToNearestNote_unfold (freq : num) :
  ∃ first rest,
    PENTATONIC_SCALE = first :: rest
    ∧ snapToNearestNote freq = Some (foldl (nearer freq) first rest).
Proof. unfold snapToNearestNote, PENTATONIC_SCALE. cbn [reduce]. eauto. Qed.

Lemma fmap_eq_elem {A B : Type} (f g : A → B) (l : list A) (x : A) :
  f <$> l = g <$> l → x ∈ l → f x = g x.
Proof.
  induction l as [|y l IH]; intros Heq Hin; [by apply elem_of_nil in Hin|].
  rewrite !fmap_cons in Heq. injection Heq as Hy Hl.
  apply elem_of_cons in Hin as [->|Hin]; [done|by apply IH].
Qed.

Lemma scale_notes_fixed (note : num) :
  note ∈ PENTATONIC_SCALE → snapToNearestNote note = Some note.
Proof.
  apply (fmap_eq_elem snapToNearestNote Some). vm_compute. reflexivity.
Qed.

Lemma scale_note_names :
  noteName <$> PENTATONIC_SCALE = note_names.
Proof. vm_compute. reflexivity. Qed.

(** X12.  [snapToNearestNote] never fails; its result is a note of the
    scale, snapping it again changes nothing, and no note of the scale is
    strictly nearer to the frequency in the computed distance. *)
Theorem snapToNearestNote_snaps (freq : num) :
  ∃ note : num,
    snapToNearestNote freq = Some note
    ∧ note ∈ PENTATONIC_SCALE
    ∧ snapToNearestNote note = Some note
    ∧ ∀ other : num, other ∈ PENTATONIC_SCALE →
        SFltb (distance freq other) (distance freq note) = false.
Proof.
  destruct (snapToNearestNote_unfold freq) as (first & rest & Hscale & Hsnap).
  exists (foldl (nearer freq) first rest).
  assert (foldl (nearer freq) first rest ∈ PENTATONIC_SCALE) as Hin.
  { rewrite Hscale. apply foldl_nearer_elem. }
  split; [done|]. split; [done|]. split.
  - by apply scale_notes_fixed.
  - intros other Hother. rewrite Hscale in Hother. by apply foldl_nearer_least.
Qed.

(** X13.  [getNoteNameFromFrequency] always returns one of fifteen names,
    C4 to A6; these are the names of the fifteen notes of the scale in
    order, and no two notes share a name. *)
Theorem getNoteNameFromFrequency_names (freq : num) :
  (∃ name : string,
     getNoteNameFromFrequency freq = Some name ∧ name ∈ note_names)
  ∧ noteName <$> PENTATONIC_SCALE = note_names
  ∧ NoDup note_names.
Proof.
  split; [|split; [apply scale_note_names|]].
  - destruct (snapToNearestNote_unfold freq) as (first & rest & Hscale & Hsnap).
    unfold getNoteNameFromFrequency. rewrite Hsnap. cbn [fmap option_fmap option_map].
    eexists. split; [done|].
    rewrite <- scale_note_names. apply list_elem_of_fmap_2.
    rewrite Hscale. apply foldl_nearer_elem.
  - apply (bool_decide_eq_true_1 (NoDup note_names)). vm_compute. reflexivity.
Qed.

(** ** The clock *)

Lemma run_clock_frame (times : list num) (s : Sequencer) :
  transport s = started → currentStepRef s < 32 →
  let r := run (Clock <$> times) s in
  currentStepRef r.2 = (currentStepRef s + length times) mod 32
  ∧ tracksRef r.2 = tracksRef s
  ∧ transport r.2 = started.
Proof.
  revert s. induction times as [|time times IH]; intros s Hstarted Hlt.
  { cbn [fmap list_fmap run snd length].
    by rewrite Nat.add_0_r, Nat.mod_small. }
  rewrite fmap_cons, run_cons. cbn [fst snd step length]. rewrite Hstarted.
  destruct (IH (scheduleRepeat_callback time s).2 Hstarted) as (Hc & Ht & Htr).
  { change (currentStepRef (scheduleRepeat_callback time s).2)
      with ((currentStepRef s + 1) mod 32).
    apply Nat.mod_upper_bound. lia. }
  rewrite Hc, Ht. split; [|done].
  change (currentStepRef (scheduleRepeat_callback time s).2)
    with ((currentStepRef s + 1) mod 32).
  rewrite Nat.Div0.add_mod_idemp_l. f_equal. lia.
Qed.

(** X14.  While the transport is started, [k] calls of the callback take
    the master step from [c] to [(c + k) mod 32]; after 32 calls it is back
    where it was. *)
Theorem clock_advances_master_step (times : list num) (s : Sequencer) :
  transport s = started → currentStepRef s < 32 →
  currentStepRef (run (Clock <$> times) s).2 = (currentStepRef s + length times) mod 32
  ∧ (length times = 32 →
     currentStepRef (run (Clock <$> times) s).2 = currentStepRef s).
Proof.
  intros Hstarted Hlt.
  destruct (run_clock_frame times s Hstarted Hlt) as (Hc & _ & _).
  split; [done|]. intros Hlen. rewrite Hc, Hlen.
  rewrite <- Nat.Div0.add_mod_idemp_r. change (32 mod 32) with 0.
  by rewrite Nat.add_0_r, Nat.mod_small.
Qed.

(** ** Notes per cycle *)

Lemma notes_over_cycles (times : list num) (s : Sequencer) (trackId : nat)
    (track : TrackSettings.t) (c : nat) :
  transport s = started → currentStepRef s = 0 →
  lastPlayedStepRef s !! trackId = None →
  tracksRef s !! trackId = Some track →
  1 ≤ TrackSettings.steps track ≤ 32 →
  length (TrackSettings.pattern track) = TrackSettings.steps track →
  length times = 32 * c →
  let count := active_count (TrackSettings.pattern track) in
  let notes := length (notes_of trackId (run (Clock <$> times) s).1) in
  (2 ≤ count → notes = c * count)
  ∧ (count = 1 → 1 ≤ c → notes = 1).
Proof.
  intros Hstarted Hzero Hlast Htrack Hsteps Hlen Htimes count notes.
  subst count notes.
  destruct (run_clock_track times s trackId track Hstarted Htrack) as [-> _].
  rewrite Hzero, Hlast, Htimes.
  destruct c as [|c].
  { split; [done|lia]. }
  replace (32 * S c) with (32 + 32 * c) by lia.
  rewrite local_steps_app by lia. change ((0 + 32) mod 32) with 0.
  rewrite track_run_app. cbn [fst].
  destruct (cycle_fresh (TrackSettings.pattern track) (TrackSettings.steps track) None
              Hsteps Hlen) as (Hcount & Htwo & Hone); [done|].
  rewrite Hcount. split.
  - intros Hge. destruct (cycles_steady _ _ c _ Hsteps Hlen (Htwo Hge)) as [-> _]. lia.
  - intros Heq _. destruct (Hone Heq) as (m & -> & Hm).
    rewrite track_run_silent by done. cbn. lia.
Qed.

(** X15.  A track of 1 to 32 steps whose pattern has at least two active
    steps, played from master step 0 with an empty memory, is given exactly
    as many notes in every cycle of 32 calls as its pattern has active
    steps. *)
Theorem notes_per_cycle (times : list num) (s : Sequencer) (trackId : nat)
    (track : TrackSettings.t) (c : nat) :
  transport s = started → currentStepRef s = 0 →
  lastPlayedStepRef s !! trackId = None →
  tracksRef s !! trackId = Some track →
  1 ≤ TrackSettings.steps track ≤ 32 →
  length (TrackSettings.pattern track) = TrackSettings.steps track →
  2 ≤ active_count (TrackSettings.pattern track) →
  length times = 32 * c →
  length (notes_of trackId (run (Clock <$> times) s).1)
  = c * active_count (TrackSettings.pattern track).
Proof.
  intros Hstarted Hzero Hlast Htrack Hsteps Hlen Htwo Htimes.
  by apply (notes_over_cycles times s trackId track c).
Qed.

(** X16.  A track of 1 to 32 steps whose pattern has exactly one active
    step, played from master step 0 with an empty memory, is given one note
    in all, however many cycles of 32 calls are played. *)
Theorem one_active_step_is_played_once (times : list num) (s : Sequencer)
    (trackId : nat) (track : TrackSettings.t) (c : nat) :
  transport s = started → currentStepRef s = 0 →
  lastPlayedStepRef s !! trackId = None →
  tracksRef s !! trackId = Some track →
  1 ≤ TrackSettings.steps track ≤ 32 →
  length (TrackSettings.pattern track) = TrackSettings.steps track →
  active_count (TrackSettings.pattern track) = 1 →
  length times = 32 * c → 1 ≤ c →
  length (notes_of trackId (run (Clock <$> times) s).1) = 1.
Proof.
  intros Hstarted Hzero Hlast Htrack Hsteps Hlen Hone Htimes Hc.
  by apply (notes_over_cycles times s trackId track c).
Qed.

Lemma reported_settings_facts (t : Track.state) :
  Track.reachable t →
  1 ≤ Track.steps t ≤ 32
  ∧ length (Track.newPattern t) = Track.steps t
  ∧ active_count (Track.newPattern t) = Nat.min (Track.pulses t) (Track.steps t).
Proof.
  intros Hreach. destruct (reachable_bounds t Hreach) as (Hsteps & Hpulses & Hrot).
  unfold Track.newPattern.
  split; [done|]. split; [apply generatePattern_length|].
  rewrite generatePattern_rotated, active_count_rotate_slices.
  apply active_count_unrotated; lia.
Qed.

(** X17.  A track set up by the sliders with at least two pulses, reported
    to a freshly mounted sequencer and started, is given its number of
    pulses (the smaller of [pulses] and [steps]) in notes every cycle. *)
Theorem track_plays_its_pulses (times : list num) (trackId : nat) (t : Track.state)
    (c : nat) :
  Track.reachable t →
  2 ≤ Nat.min (Track.pulses t) (Track.steps t) →
  length times = 32 * c →
  length (notes_of trackId (run (Clock <$> times) (playing trackId t)).1)
  = c * Nat.min (Track.pulses t) (Track.steps t).
Proof.
  intros Hreach Htwo Htimes.
  destruct (reported_settings_facts t Hreach) as (Hsteps & Hlen & Hcount).
  destruct (notes_over_cycles times (playing trackId t) trackId (Track.settings t) c)
    as [Hnotes _]; [done|done|done|apply lookup_insert_eq|done|done|done|].
  rewrite <- Hcount. apply Hnotes.
  change (TrackSettings.pattern (Track.settings t)) with (Track.newPattern t). lia.
Qed.

(** ** The circle of a track *)

(** X18.  For a pattern as long as the steps, exactly one circle is drawn
    white, the one at the track's local step [trackStep currentStep
    steps]; every other circle is green if its step is active and grey if
    not. *)
Theorem one_circle_is_highlighted (pattern : list bool) (currentStep steps : nat) :
  currentStep < 32 → 1 ≤ steps ≤ 32 → length pattern = steps →
  ∃ k : nat,
    trackStep currentStep steps = Some (Z.of_nat k)
    ∧ k < steps
    ∧ circle_fills pattern currentStep steps !! k = Some "#FFFFFF"
    ∧ ∀ i : nat, i < steps → i ≠ k →
        circle_fills pattern currentStep steps !! i
        = (λ active : bool, if active then "#4CAF50" else "#757575") <$> pattern !! i.
Proof.
  intros Hc Hsteps Hlen. exists (currentStep * steps / 32).
  assert (currentStep * steps / 32 < steps) as Hk
    by (apply Nat.Div0.div_lt_upper_bound; nia).
  split; [by apply trackStep_exact|].
  unfold circle_fills. rewrite trackStep_exact by done.
  split; [done|]. split.
  - rewrite list_lookup_imap.
    destruct (lookup_lt_is_Some_2 pattern (currentStep * steps / 32)) as [b ->]; [lia|].
    cbn [fmap option_fmap option_map]. by rewrite bool_decide_eq_true_2.
  - intros i Hi Hne. rewrite list_lookup_imap.
    destruct (pattern !! i) as [b|]; [|done]. cbn [fmap option_fmap option_map].
    rewrite bool_decide_eq_false_2; [done|]. intros Heq.
    apply (inj Some), Nat2Z.inj in Heq. congruence.
Qed.

(** ** The further theorems at concrete inputs *)

Lemma generatePattern_rotates_left_16_4_3 :
  3 ≤ 16
  ∧ generatePattern 16 4 3 = rotate 3 (generatePattern 16 4 0)
  ∧ ∀ i, i < 16 → generatePattern 16 4 3 !! i = generatePattern 16 4 0 !! ((i + 3) mod 16).
Proof. split; [lia|]. apply (generatePattern_rotates_left 16 4 3). lia. Defined.

Lemma generatePattern_rotation_keeps_pulses_12_5_40 :
  (12 ≤ 32 ∧ 5 ≤ 12)
  ∧ active_count (generatePattern 12 5 40) = active_count (generatePattern 12 5 0)
  ∧ active_count (generatePattern 12 5 40) = 5.
Proof.
  split; [lia|]. split.
  - exact (proj1 (generatePattern_rotation_keeps_pulses 12 5 40)).
  - apply (proj2 (generatePattern_rotation_keeps_pulses 12 5 40)); lia.
Defined.

Lemma generatePattern_downbeat_7_3_2 :
  (1 ≤ 7 ∧ 1 ≤ 3 ∧ 2 ≤ 7) ∧ generatePattern 7 3 2 !! ((7 - 2) mod 7) = Some true.
Proof. split; [lia|]. apply (generatePattern_downbeat 7 3 2); lia. Defined.

Lemma generatePattern_one_pulse_5_2 :
  (1 ≤ 5 ∧ 2 ≤ 5)
  ∧ generatePattern 5 1 2 = <[(5 - 2) mod 5 := true]> (replicate 5 false).
Proof. split; [lia|]. apply (generatePattern_one_pulse 5 2); lia. Defined.

Lemma trackStep_walks_the_track_10_5 :
  (10 < 32 ∧ 1 ≤ 5 ≤ 32)
  ∧ ∃ k : nat,
      trackStep 10 5 = Some (Z.of_nat k) ∧ k < 5
      ∧ (10 = 0 → k = 0) ∧ (10 = 31 → k = 5 - 1)
      ∧ (10 < 31 → ∃ k' : nat, trackStep 11 5 = Some (Z.of_nat k') ∧ k ≤ k' ≤ S k).
Proof. split; [lia|]. apply (trackStep_walks_the_track 10 5); lia. Defined.

Lemma reported_settings_agree_stale_rotation :
  Track.reachable stale_rotation
  ∧ (let settings := Track.settings stale_rotation in
     1 ≤ TrackSettings.steps settings ≤ 32
     ∧ TrackSettings.pulses settings ≤ TrackSettings.steps settings
     ∧ length (TrackSettings.pattern settings) = TrackSettings.steps settings
     ∧ TrackSettings.patternLength settings = TrackSettings.steps settings
     ∧ active_count (TrackSettings.pattern settings) = TrackSettings.pulses settings).
Proof.
  assert (Track.reachable stale_rotation) as Hreach by repeat constructor.
  split; [exact Hreach|]. apply (reported_settings_agree stale_rotation Hreach).
Defined.

Lemma memory_after_first_call :
  let actions := [SettingsChange 1 (Track.settings Track.initial); Start;
                  Clock (clock_time 0)] in
  let s := (run actions (mount default_noteDuration)).2 in
  lastPlayedStepRef s !! 1 = Some (Some 0%Z)
  ∧ is_Some (tracksRef s !! 1) ∧ ∃ z : Z, Some 0%Z = Some z ∧ (0 ≤ z)%Z.
Proof.
  intros actions s.
  assert (lastPlayedStepRef s !! 1 = Some (Some 0%Z)) as Hlast
    by (vm_compute; reflexivity).
  split; [exact Hlast|].
  apply (memory_holds_steps_of_tracks default_noteDuration actions 1 (Some 0%Z) Hlast).
Defined.

Lemma callback_notes_first_call :
  let s := playing 1 Track.initial in
  let note := {| note_track := 1; note_time := clock_time 0;
                 note_duration := default_noteDuration |} in
  note ∈ (scheduleRepeat_callback (clock_time 0) s).1.
Proof.
  intros s note.
  apply (callback_notes (clock_time 0) s note).
  exists (Track.settings Track.initial).
  split; [vm_compute; reflexivity|].
  split; [vm_compute; reflexivity|].
  split; reflexivity.
Defined.

Lemma dedup_survives_new_settings_16_to_8 :
  let s := playing 1 Track.initial in
  let settings := Track.settings (Track.onChange (Track.StepsSlider 8) Track.initial) in
  tracksRef s !! 1 = Some (Track.settings Track.initial)
  ∧ trackStep 0 16 = trackStep 1 8
  ∧ length
      (notes_of 1
         ((scheduleRepeat_callback (clock_time 0) s).1
          ++ (scheduleRepeat_callback (clock_time 1)
                (handleSettingsChange 1 settings
                   (scheduleRepeat_callback (clock_time 0) s).2)).1))
    ≤ 1.
Proof.
  intros s settings.
  split; [vm_compute; reflexivity|].
  split; [vm_compute; reflexivity|].
  apply (dedup_survives_new_settings (clock_time 0) (clock_time 1) s 1
           (Track.settings Track.initial) settings).
  - vm_compute. reflexivity.
  - vm_compute. reflexivity.
Defined.

Lemma clock_advances_master_step_40 :
  let s := playing 1 Track.initial in
  let times := clock_time <$> seq 0 40 in
  (transport s = started ∧ currentStepRef s < 32)
  ∧ currentStepRef (run (Clock <$> times) s).2 = (currentStepRef s + length times) mod 32.
Proof.
  intros s times. split; [split; [reflexivity|cbn; lia]|].
  apply (clock_advances_master_step times s); [reflexivity|cbn; lia].
Defined.

Lemma notes_per_cycle_16_4 :
  let s := playing 1 Track.initial in
  let times := clock_time <$> seq 0 96 in
  length (notes_of 1 (run (Clock <$> times) s).1)
  = 3 * active_count (TrackSettings.pattern (Track.settings Track.initial)).
Proof.
  intros s times.
  apply (notes_per_cycle times s 1 (Track.settings Track.initial) 3).
  - reflexivity.
  - reflexivity.
  - vm_compute. reflexivity.
  - vm_compute. reflexivity.
  - cbn. lia.
  - vm_compute. reflexivity.
  - vm_compute. lia.
  - vm_compute. reflexivity.
Defined.

Lemma one_active_step_is_played_once_4_1 :
  let s := playing 1 one_pulse in
  let times := clock_time <$> seq 0 64 in
  length (notes_of 1 (run (Clock <$> times) s).1) = 1.
Proof.
  intros s times.
  apply (one_active_step_is_played_once times s 1 (Track.settings one_pulse) 2).
  - reflexivity.
  - reflexivity.
  - vm_compute. reflexivity.
  - vm_compute. reflexivity.
  - cbn. lia.
  - vm_compute. reflexivity.
  - vm_compute. reflexivity.
  - vm_compute. reflexivity.
  - lia.
Defined.

Lemma track_plays_its_pulses_16_4 :
  let times := clock_time <$> seq 0 64 in
  Track.reachable Track.initial
  ∧ length (notes_of 2 (run (Clock <$> times) (playing 2 Track.initial)).1)
    = 2 * Nat.min (Track.pulses Track.initial) (Track.steps Track.initial).
Proof.
  intros times. split; [constructor|].
  apply (track_plays_its_pulses times 2 Track.initial 2).
  - constructor.
  - cbn. lia.
  - vm_compute. reflexivity.
Defined.

Lemma snapToNearestNote_snaps_450 :
  ∃ note : num,
    snapToNearestNote (Num.of_Z 450) = Some note
    ∧ note ∈ PENTATONIC_SCALE
    ∧ snapToNearestNote note = Some note
    ∧ SFltb (distance (Num.of_Z 450) (decimal 52325 100)) (distance (Num.of_Z 450) note)
      = false.
Proof.
  destruct (snapToNearestNote_snaps (Num.of_Z 450)) as (note & Hsnap & Hin & Hfix & Hleast).
  exists note. split; [exact Hsnap|]. split; [exact Hin|]. split; [exact Hfix|].
  apply Hleast. unfold PENTATONIC_SCALE. do 5 apply list_elem_of_further.
  apply list_elem_of_here.
Defined.

Lemma one_circle_is_highlighted_16_4 :
  (5 < 32 ∧ 1 ≤ 16 ≤ 32 ∧ length (generatePattern 16 4 0) = 16)
  ∧ ∃ k : nat,
      trackStep 5 16 = Some (Z.of_nat k)
      ∧ k < 16
      ∧ circle_fills (generatePattern 16 4 0) 5 16 !! k = Some "#FFFFFF"
      ∧ ∀ i : nat, i < 16 → i ≠ k →
          circle_fills (generatePattern 16 4 0) 5 16 !! i
          = (λ active : bool, if active then "#4CAF50" else "#757575")
              <$> generatePattern 16 4 0 !! i.
Proof.
  assert (length (generatePattern 16 4 0) = 16) as Hlen by apply generatePattern_length.
  split; [split; [lia|split; [lia|exact Hlen]]|].
  apply (one_circle_is_highlighted (generatePattern 16 4 0) 5 16); [lia|lia|exact Hlen].
Defined.
